(** * DhakaPost spider: link discovery, deduplication and article normalisation

    A shallow embedding of
    [news_crawler/spiders/dhakapost_alltopics_500.py]:
    the URL classifiers [source_to_category] and [url_to_section], the
    article-URL pattern [ARTICLE_RE], the pagination loop of [parse_list]
    over the shared [seen_links] set, and the field extraction of
    [parse_article].

    Python [str] values are sequences of Unicode code points; the Playwright
    page and the parsel selectors are collaborators whose answers are inputs
    of the model. *)

From Stdlib Require Import NArith String Ascii Lia.
From stdpp Require Import base option list gmap sets.

(** ** Python strings *)

Module PyStr.

(** A character is a Unicode code point. *)
Definition char : Type := N.
Definition pystr : Type := list N.

(** ASCII literals of the source, written as Rocq strings. *)
Definition ch (a : ascii) : char := N_of_ascii a.
Definition py (s : string) : pystr := map N_of_ascii (list_ascii_of_string s).

Definition in_range (lo hi c : N) : bool := (lo <=? c)%N && (c <=? hi)%N.

(** [str.isspace] on one character: the code points CPython treats as
    whitespace in [str.strip()] and [str.split()]. *)
Definition isspace (c : char) : bool :=
  in_range 9 13 c || in_range 28 32 c || (c =? 133)%N || (c =? 160)%N
  || (c =? 5760)%N || in_range 8192 8202 c || (c =? 8232)%N || (c =? 8233)%N
  || (c =? 8239)%N || (c =? 8287)%N || (c =? 12288)%N.

(** First code points of the runs of ten decimal digits (Unicode category
    Nd, Unicode 14.0); the mathematical digits 1D7CE-1D7FF form five runs. *)
Definition decimal_runs : list N :=
  [ 48; 1632; 1776; 1984; 2406; 2534; 2662; 2790; 2918; 3046; 3174; 3302;
    3430; 3558; 3664; 3792; 3872; 4160; 4240; 6112; 6160; 6470; 6608; 6784;
    6800; 6992; 7088; 7232; 7248; 42528; 43216; 43264; 43472; 43504; 43600;
    44016; 65296; 66720; 68912; 69734; 69872; 69942; 70096; 70384; 70736;
    70864; 71248; 71360; 71472; 71904; 72016; 72784; 73040; 73120; 92768;
    92864; 93008; 120782; 120792; 120802; 120812; 120822; 123200; 123632;
    125264; 130032 ]%N.

(** The class [\d] of a [str] pattern: any Unicode decimal digit. *)
Definition isdecimal (c : char) : bool :=
  existsb (fun lo => in_range lo (lo + 9) c) decimal_runs.

Fixpoint dropWhile (p : char -> bool) (s : pystr) : pystr :=
  match s with
  | [] => []
  | c :: s' => if p c then dropWhile p s' else s
  end.

Fixpoint takeWhile (p : char -> bool) (s : pystr) : pystr :=
  match s with
  | [] => []
  | c :: s' => if p c then c :: takeWhile p s' else []
  end.

(** [s.lstrip(chars)], [s.rstrip(chars)], [s.strip(chars)]: the characters to
    remove are given by a predicate. *)
Definition lstrip_by (p : char -> bool) (s : pystr) : pystr := dropWhile p s.
Definition rstrip_by (p : char -> bool) (s : pystr) : pystr :=
  rev (dropWhile p (rev s)).
Definition strip_by (p : char -> bool) (s : pystr) : pystr :=
  rstrip_by p (lstrip_by p s).

Definition is_char (c : char) : char -> bool := fun d => (d =? c)%N.

(** [s.strip()] *)
Definition strip (s : pystr) : pystr := strip_by isspace s.
(** [s.strip("/")] and [s.rstrip("/")] *)
Definition strip_chars (c : char) (s : pystr) : pystr := strip_by (is_char c) s.
Definition rstrip_chars (c : char) (s : pystr) : pystr := rstrip_by (is_char c) s.

(** [s.replace(old, new)] for one-character [old] and [new]. *)
Definition replace_char (old new : char) (s : pystr) : pystr :=
  map (fun c => if (c =? old)%N then new else c) s.

(** [s.startswith(pre)] *)
Fixpoint startswith (pre s : pystr) : bool :=
  match pre, s with
  | [], _ => true
  | _ :: _, [] => false
  | a :: pre', b :: s' => (a =? b)%N && startswith pre' s'
  end.

(** [s.find(sub)]: index of the first occurrence, [None] for -1. *)
Fixpoint find (sub s : pystr) : option nat :=
  if startswith sub s then Some 0
  else match s with
       | [] => None
       | _ :: s' => S <$> find sub s'
       end.

(** [sub in s] *)
Definition contains (sub s : pystr) : bool :=
  match find sub s with Some _ => true | None => false end.

(** [s.split(sep)] for a non-empty [sep] (an empty separator raises
    ValueError in Python; the source passes literals only).  The scan goes
    left to right and resumes after each separator found; [fuel] bounds the
    number of separators, at most one per character. *)
Fixpoint split_fuel (fuel : nat) (sep s : pystr) : list pystr :=
  match fuel with
  | O => [s]
  | S fuel' =>
      match find sep s with
      | None => [s]
      | Some i => take i s :: split_fuel fuel' sep (drop (i + length sep) s)
      end
  end.

Definition split (sep s : pystr) : list pystr := split_fuel (length s) sep s.

(** [l[-1]] of a list that [split] returned (never empty). *)
Definition last_piece (l : list pystr) : pystr := List.last l [].

(** [s.split()]: the maximal runs of non-whitespace characters.  [cur] holds
    the characters of the token being scanned, most recent first. *)
Fixpoint split_ws_from (cur : pystr) (s : pystr) : list pystr :=
  match s with
  | [] => match cur with [] => [] | _ :: _ => [rev cur] end
  | c :: s' =>
      if isspace c then
        match cur with
        | [] => split_ws_from [] s'
        | _ :: _ => rev cur :: split_ws_from [] s'
        end
      else split_ws_from (c :: cur) s'
  end.

Definition split_ws (s : pystr) : list pystr := split_ws_from [] s.

(** [sep.join(l)] *)
Fixpoint join (sep : pystr) (l : list pystr) : pystr :=
  match l with
  | [] => []
  | [x] => x
  | x :: l' => x ++ sep ++ join sep l'
  end.

(** Truth value of a string: empty strings are falsy. *)
Definition truthy (s : pystr) : bool :=
  match s with [] => false | _ :: _ => true end.

End PyStr.
Import PyStr.


(** ** Regular expressions, as far as [ARTICLE_RE] needs them *)

Module Regex.

Inductive regex : Type :=
| Never                       (* matches nothing *)
| Eps                         (* the empty pattern *)
| Lit (c : char)              (* one literal character; [\.] is [Lit "."] *)
| Class (p : char -> bool)    (* a character class: [[^/]], [\d] *)
| Seq (r1 r2 : regex)
| Alt (r1 r2 : regex)
| Star (r : regex).

(** [r?], [r+] and a literal string. *)
Definition Opt (r : regex) : regex := Alt r Eps.
Definition Plus (r : regex) : regex := Seq r (Star r).
Fixpoint Str (s : pystr) : regex :=
  match s with
  | [] => Eps
  | c :: s' => Seq (Lit c) (Str s')
  end.

Fixpoint nullable (r : regex) : bool :=
  match r with
  | Never => false
  | Eps => true
  | Lit _ => false
  | Class _ => false
  | Seq r1 r2 => nullable r1 && nullable r2
  | Alt r1 r2 => nullable r1 || nullable r2
  | Star _ => true
  end.

(** Brzozowski derivative: what remains to be matched after reading [c]. *)
Fixpoint deriv (c : char) (r : regex) : regex :=
  match r with
  | Never => Never
  | Eps => Never
  | Lit d => if (c =? d)%N then Eps else Never
  | Class p => if p c then Eps else Never
  | Seq r1 r2 =>
      if nullable r1 then Alt (Seq (deriv c r1) r2) (deriv c r2)
      else Seq (deriv c r1) r2
  | Alt r1 r2 => Alt (deriv c r1) (deriv c r2)
  | Star r1 => Seq (deriv c r1) (Star r1)
  end.

(** The whole of [s] matches [r]. *)
Fixpoint fullmatch (r : regex) (s : pystr) : bool :=
  match s with
  | [] => nullable r
  | c :: s' => fullmatch (deriv c r) s'
  end.

(** [re.compile("^" r "$").match(s)] as a truth value.  [match] anchors at
    the start; without MULTILINE, [$] holds at the end of the string and
    just before a newline that ends the string. *)
Definition match_to_end (r : regex) (s : pystr) : bool :=
  fullmatch r s
  || match rev s with
     | c :: t => (c =? 10)%N && fullmatch r (rev t)
     | [] => false
     end.

(** The strings a pattern denotes. *)
Inductive lang : regex -> pystr -> Prop :=
| lang_eps : lang Eps []
| lang_lit c : lang (Lit c) [c]
| lang_class p c : p c = true -> lang (Class p) [c]
| lang_seq r1 r2 s1 s2 : lang r1 s1 -> lang r2 s2 -> lang (Seq r1 r2) (s1 ++ s2)
| lang_alt_l r1 r2 s : lang r1 s -> lang (Alt r1 r2) s
| lang_alt_r r1 r2 s : lang r2 s -> lang (Alt r1 r2) s
| lang_star_nil r : lang (Star r) []
| lang_star_cons r s1 s2 : lang r s1 -> lang (Star r) s2 -> lang (Star r) (s1 ++ s2).

End Regex.
Import Regex.

(** Concatenation of the parts of a pattern, left to right. *)
Definition Cat (parts : list regex) : regex := foldr Seq Eps parts.

Definition not_slash (c : char) : bool := negb (c =? ch "/")%N.

(** [ARTICLE_RE = re.compile(r"^https?://www\.dhakapost\.com/[^/]+/\d+/?$")] *)
Definition ARTICLE_RE : regex :=
  Cat [ Str (py "http"); Opt (Lit (ch "s")); Str (py "://www"); Lit (ch ".");
        Str (py "dhakapost"); Lit (ch "."); Str (py "com/");
        Plus (Class not_slash); Lit (ch "/"); Plus (Class isdecimal);
        Opt (Lit (ch "/")) ].

(** [ARTICLE_RE.match(url)] as a truth value. *)
Definition ARTICLE_RE_match (url : pystr) : bool := match_to_end ARTICLE_RE url.

(** ** Exceptions *)

Inductive exn : Type := ValueError.

Inductive result (A : Type) : Type :=
| Ret (a : A)
| Raise (e : exn).
Arguments Ret {A} a.
Arguments Raise {A} e.

#[global] Instance result_ret : MRet result := fun _ a => Ret a.
#[global] Instance result_bind : MBind result := fun _ _ k x =>
  match x with
  | Ret a => k a
  | Raise e => Raise e
  end.

(** ** UrlClassifier *)

Section UrlClassifier.

(** [urllib.parse.urlparse(url).path] of the Python standard library;
    [Raise ValueError] when [urlparse] rejects the URL. *)
Variable urlparse_path : pystr -> result pystr.

Definition source_to_category (source_url : pystr) : result (pystr * option pystr) :=
  if negb (truthy source_url) then Ret (py "unknown", None)
  else if contains (py "/topic/") source_url then
    let topic_slug :=
      last_piece (split (py "/topic/") (rstrip_chars (ch "/") source_url)) in
    Ret (py "topic", Some topic_slug)
  else
    p ← urlparse_path source_url;
    let path := strip_chars (ch "/") p in
    if negb (truthy path) then Ret (py "home", None)
    else
      let category := hd [] (split (py "/") path) in
      Ret (category, None).

(** The [try] block of [url_to_section]: [Ret (Some s)] is [return s],
    [Ret None] falls out of the block. *)
Definition url_to_section_try (article_url : pystr) : result (option pystr) :=
  p ← urlparse_path article_url;
  let path := strip_chars (ch "/") p in
  let parts := split (py "/") path in
  if 2 <=? length parts then Ret (Some (hd [] parts)) else Ret None.

(** [except Exception: pass], then [return None]. *)
Definition url_to_section (article_url : pystr) : option pystr :=
  match url_to_section_try article_url with
  | Ret (Some section) => Some section
  | Ret None => None
  | Raise _ => None
  end.

End UrlClassifier.

(** ** The spider: shared link registry and pagination *)

(** The [meta] dictionary that [parse_list] attaches to an article request. *)
Record Meta : Type := {
  source_list : pystr;
  category : pystr;
  topic_slug : option pystr
}.

(** [scrapy.Request(url, callback=self.parse_article, meta=..., dont_filter=True)] *)
Record Request : Type := {
  req_url : pystr;
  req_meta : Meta
}.

Definition max_clicks_per_source : nat := 80.
Definition target_unique_links : nat := 2100.
Definition stale_limit : nat := 5.

(** [self.seen_links = set()] in [__init__]. *)
Definition seen_links_init : gset pystr := ∅.

(** One pass through the body of [for url in hrefs]: the pattern test, the
    membership test and the insertion run without a suspension point between
    them; the request is yielded after the insertion. *)
Definition visit (m : Meta) (seen : gset pystr) (url : pystr)
  : option Request * gset pystr :=
  if negb (ARTICLE_RE_match url) then (None, seen)
  else if decide (url ∈ seen) then (None, seen)
  else (Some {| req_url := url; req_meta := m |}, {[url]} ∪ seen).

(** What a listing callback meets while it walks the hrefs of one round:
    [Href u] is the next href of the page's answer; [Other u] is a URL that
    another callback added to [seen_links] while this one was suspended (at
    the [await] of the query or at a [yield]). *)
Inductive item : Type :=
| Href (u : pystr)
| Other (u : pystr).

Definition hrefs_of (items : list item) : list pystr :=
  omap (fun it => match it with Href u => Some u | Other _ => None end) items.

(** The [for url in hrefs] loop: requests yielded, the registry afterwards
    and [new_count]. *)
Fixpoint harvest (m : Meta) (items : list item) (seen : gset pystr)
  : list Request * gset pystr * nat :=
  match items with
  | [] => ([], seen, 0)
  | Other u :: rest => harvest m rest ({[u]} ∪ seen)
  | Href u :: rest =>
      match visit m seen u with
      | (Some r, seen') =>
          let '(rs, s, n) := harvest m rest seen' in (r :: rs, s, S n)
      | (None, seen') => harvest m rest seen'
      end
  end.

(** The answers of the Playwright page in one round. *)
Record RoundObs : Type := {
  ro_items : list item;      (* hrefs of [a.group[href]], with interleaved additions *)
  ro_role_count : nat;       (* [get_by_role("button", name=...).count()] *)
  ro_role_recount : nat;     (* the same locator counted again *)
  ro_text_count : nat;       (* [page.locator("text=...").count()] *)
  ro_click_ok : bool;        (* the click and the wait after it did not raise *)
  ro_others : list pystr     (* added by other callbacks during these awaits *)
}.

(** The line that [self.logger.info("LIST ...")] writes each round. *)
Record RoundLog : Type := {
  rl_click : nat;
  rl_links : nat;
  rl_new : nat;
  rl_total : nat
}.

(** Why the [for click_i in range(...)] loop was left. *)
Inductive Stop : Type :=
| TargetReached      (* [len(self.seen_links) >= self.target_unique_links] *)
| StaleLimit         (* [stale_rounds >= 5] *)
| NoControl          (* no button found by role or by text *)
| ClickFailed        (* the click raised *)
| ClicksExhausted.   (* [range] ran out *)

Record ListResult : Type := {
  lr_requests : list Request;
  lr_log : list RoundLog;
  lr_seen : gset pystr;
  lr_stop : Stop
}.

Definition add_all (us : list pystr) (seen : gset pystr) : gset pystr :=
  list_to_set us ∪ seen.

(** The rounds of [parse_list] from round [click_i] on, [n] rounds of the
    range being left; [page i] is what the page answers in round [i]. *)
Fixpoint parse_list_loop (m : Meta) (page : nat -> RoundObs) (n click_i : nat)
    (last_total stale_rounds : nat) (seen : gset pystr) : ListResult :=
  match n with
  | O => {| lr_requests := []; lr_log := []; lr_seen := seen;
            lr_stop := ClicksExhausted |}
  | S n' =>
      if target_unique_links <=? size seen then
        {| lr_requests := []; lr_log := []; lr_seen := seen;
           lr_stop := TargetReached |}
      else
        let obs := page click_i in
        let '(reqs, seen1, new_count) := harvest m (ro_items obs) seen in
        let entry := {| rl_click := click_i + 1;
                        rl_links := length (hrefs_of (ro_items obs));
                        rl_new := new_count;
                        rl_total := size seen1 |} in
        let stale_rounds' :=
          if size seen1 =? last_total then stale_rounds + 1 else 0 in
        let last_total' :=
          if size seen1 =? last_total then last_total else size seen1 in
        let final_count :=
          if ro_role_count obs =? 0 then ro_text_count obs
          else ro_role_recount obs in
        let stop_here (why : Stop) :=
          {| lr_requests := reqs; lr_log := [entry]; lr_seen := seen1;
             lr_stop := why |} in
        if stale_limit <=? stale_rounds' then stop_here StaleLimit
        else if final_count =? 0 then stop_here NoControl
        else if negb (ro_click_ok obs) then stop_here ClickFailed
        else
          let r := parse_list_loop m page n' (S click_i) last_total'
                     stale_rounds' (add_all (ro_others obs) seen1) in
          {| lr_requests := reqs ++ lr_requests r;
             lr_log := entry :: lr_log r;
             lr_seen := lr_seen r;
             lr_stop := lr_stop r |}
  end.

(** The response handed to [parse_list], as far as the callback reads it. *)
Record ListResponse : Type := {
  lresp_url : pystr;
  lmeta_source : option pystr;
  lmeta_category : option pystr;
  lmeta_topic_slug : option pystr
}.

Definition list_meta (response : ListResponse) : Meta :=
  {| source_list := default (lresp_url response) (lmeta_source response);
     category := default (py "unknown") (lmeta_category response);
     topic_slug := lmeta_topic_slug response |}.

(** [parse_list]: [last_total = 0], [stale_rounds = 0], then the loop over
    [range(self.max_clicks_per_source)]. *)
Definition parse_list (response : ListResponse) (page : nat -> RoundObs)
    (seen : gset pystr) : ListResult :=
  parse_list_loop (list_meta response) page max_clicks_per_source 0 0 0 seen.

(** A run as the registry sees it: the passes through the loop body that the
    listing callbacks make, in the order in which they execute.  Each pass is
    atomic, so any interleaving of callbacks is such a sequence. *)
Fixpoint run_visits (seen : gset pystr) (calls : list (Meta * pystr))
  : list (option Request) * gset pystr :=
  match calls with
  | [] => ([], seen)
  | (m, u) :: rest =>
      let '(r, seen') := visit m seen u in
      let '(rs, s) := run_visits seen' rest in
      (r :: rs, s)
  end.

(** ** ArticleExtractor *)

(** What the selectors of [parse_article] return on the rendered page
    ([getall()] of each query, in document order). *)
Record Selectors : Type := {
  css_h1_text : list pystr;        (* [response.css("h1::text")] *)
  xpath_h1_text : list pystr;      (* [response.xpath("//h1/text()")] *)
  xpath_author_any : list pystr;   (* class contains author or writer *)
  xpath_author_p : list pystr;     (* [//p[contains(@class,'author')]/text()] *)
  css_time_text : list pystr;      (* [response.css("time::text")] *)
  xpath_paras : list pystr         (* [//article//p//text() | //main//p//text()] *)
}.

Inductive Response : Type :=
| TextResponse (url : pystr) (meta_category : option pystr)
    (meta_topic_slug : option pystr) (sel : Selectors)
| OtherResponse (url : pystr).

Definition response_url (r : Response) : pystr :=
  match r with
  | TextResponse url _ _ _ => url
  | OtherResponse url => url
  end.

Record ArticleRecord : Type := {
  title : option pystr;
  body : pystr;
  url : pystr;
  date : option pystr;
  language : pystr;
  author : option pystr;
  tokens : nat;
  section : option pystr
}.

Inductive LogRecord : Type :=
| LogWarning (msg : pystr)
| LogInfo (msg : pystr).

(** [selector.get()]: the first result, or [None]. *)
Definition get (results : list pystr) : option pystr := head results.

(** [a or b] on values that are [None] or a string. *)
Definition py_or (a b : option pystr) : option pystr :=
  match a with
  | Some s => if truthy s then a else b
  | None => b
  end.

(** [x.strip() if x else None] *)
Definition strip_or_none (x : option pystr) : option pystr :=
  match x with
  | Some s => if truthy s then Some (strip s) else None
  | None => None
  end.

Definition nbsp : char := 160%N.
Definition space : char := 32%N.

(** [bad = {...}]: the four boilerplate phrases. *)
Definition bad : list pystr :=
  [ [2438; 2480; 2451; 32; 2474; 2524; 2497; 2472];
    [2475; 2482; 2507; 32; 2453; 2480; 2497; 2472];
    [2476; 2495; 2460; 2509; 2462; 2494; 2474; 2472];
    [2482; 2507; 2465; 32; 2489; 2458; 2509; 2459; 2503; 32; 46; 46; 46] ]%N.

(** [[t.strip().replace("\xa0", " ") for t in paras if t.strip()]] *)
Definition clean_paras (paras : list pystr) : list pystr :=
  map (fun t => replace_char nbsp space (strip t))
      (filter (fun t => truthy (strip t) = true) paras).

(** [[t for t in cleaned if t not in bad]] *)
Definition drop_bad (cleaned : list pystr) : list pystr :=
  filter (fun t => t ∉ bad) cleaned.

Definition body_of (paras : list pystr) : pystr :=
  join [space] (drop_bad (clean_paras paras)).

Section ArticleExtractor.

Variable urlparse_path : pystr -> result pystr.

(** [parse_article]: the log records written and the items yielded. *)
Definition parse_article (response : Response)
  : list LogRecord * list ArticleRecord :=
  match response with
  | OtherResponse u =>
      ([LogWarning (py "Skipping non-text response: " ++ u)], [])
  | TextResponse u meta_category meta_topic_slug sel =>
      let title := py_or (get (css_h1_text sel)) (get (xpath_h1_text sel)) in
      let title := strip_or_none title in
      let author :=
        py_or (get (xpath_author_any sel)) (get (xpath_author_p sel)) in
      let author := strip_or_none author in
      let date := get (css_time_text sel) in
      let date :=
        match date with
        | Some d => if truthy d then Some (strip d) else date
        | None => date
        end in
      let body := body_of (xpath_paras sel) in
      let category := default (py "unknown") meta_category in
      let topic_slug := meta_topic_slug in
      let section := url_to_section urlparse_path u in
      ([], [ {| title := title;
                body := body;
                url := u;
                date := date;
                language := py "bn";
                author := author;
                tokens := length (split_ws body);
                section := section |} ])
  end.

End ArticleExtractor.

(** ** The front page: listing sources *)

(** The [sections] list of [parse_home]. *)
Definition sections : list pystr :=
  [ py "https://www.dhakapost.com/latest-news";
    py "https://www.dhakapost.com/popular-bangla-news";
    py "https://www.dhakapost.com/national";
    py "https://www.dhakapost.com/politics";
    py "https://www.dhakapost.com/economy";
    py "https://www.dhakapost.com/international";
    py "https://www.dhakapost.com/country";
    py "https://www.dhakapost.com/sports";
    py "https://www.dhakapost.com/entertainment" ].

(** [list(dict.fromkeys(l))]: a key goes to the end of the dictionary the
    first time it is met. *)
Definition fromkeys (l : list pystr) : list pystr :=
  foldl (fun acc x => if decide (x ∈ acc) then acc else acc ++ [x]) [] l.

(** The listing request that [parse_home] yields for a source, with the
    entries of its [meta] that [parse_list] reads. *)
Record ListRequest : Type := {
  lreq_url : pystr;
  lreq_source : pystr;
  lreq_category : pystr;
  lreq_topic_slug : option pystr
}.

(** Scrapy hands the [meta] of a request to its response; the URL of the
    response is the one the download ended at. *)
Definition list_response (q : ListRequest) (final_url : pystr) : ListResponse :=
  {| lresp_url := final_url;
     lmeta_source := Some (lreq_source q);
     lmeta_category := Some (lreq_category q);
     lmeta_topic_slug := lreq_topic_slug q |}.

Section HomePage.

Variable urlparse_path : pystr -> result pystr.

(** [scrapy.Request(url, ...)] checks its URL when it is built:
    [Raise ValueError] when Scrapy rejects the URL (one without a scheme,
    "Missing scheme in request url"). *)
Variable request_check : pystr -> result unit.

(** The [for src in sources] loop of [parse_home]: the requests yielded, and
    the exception that ended the generator, if one did. *)
Fixpoint source_requests (sources : list pystr) : list ListRequest * option exn :=
  match sources with
  | [] => ([], None)
  | src :: rest =>
      match source_to_category urlparse_path src with
      | Raise e => ([], Some e)
      | Ret (category, topic_slug) =>
          match request_check src with
          | Raise e => ([], Some e)
          | Ret _ =>
              let '(qs, e) := source_requests rest in
              ({| lreq_url := src; lreq_source := src; lreq_category := category;
                  lreq_topic_slug := topic_slug |} :: qs, e)
          end
      end
  end.

(** [parse_home], given the topic links the front page shows. *)
Definition parse_home (topic_urls : list pystr) : list ListRequest * option exn :=
  source_requests (fromkeys (sections ++ topic_urls)).

End HomePage.

(** The URLs that other callbacks added during a walk over [items]. *)
Definition others_of (items : list item) : list pystr :=
  omap (fun it => match it with Href _ => None | Other u => Some u end) items.

(** ** Readings of the specification used in the statements below *)

(** The shape that [ARTICLE_RE] accepts, spelled out on the string. *)
Definition article_url_shape (u : pystr) : Prop :=
  ∃ s seg ds sl nl,
    u = py "http" ++ s ++ py "://www.dhakapost.com/" ++ seg ++ py "/" ++ ds
          ++ sl ++ nl
    ∧ (s = [] ∨ s = py "s")
    ∧ seg ≠ [] ∧ Forall (fun c => c ≠ ch "/") seg
    ∧ ds ≠ [] ∧ Forall (fun c => isdecimal c = true) ds
    ∧ (sl = [] ∨ sl = py "/")
    ∧ (nl = [] ∨ nl = [10%N]).

(** The article-URL predicate in the specification's words, on the path of a
    URL: exactly one non-slash segment, a slash, one or more digits and an
    optional trailing slash. *)
Definition spec_path_shape (path : pystr) : bool :=
  fullmatch
    (Cat [ Lit (ch "/"); Plus (Class not_slash); Lit (ch "/");
           Plus (Class isdecimal); Opt (Lit (ch "/")) ])
    path.

(** The stale-round rule in the specification's words: five consecutive
    rounds without a new link (rounds [k] to [k + 4] of the log) are the
    last rounds of the loop. *)
Definition stops_after_stale_rounds (r : ListResult) : Prop :=
  ∀ k, (∀ a, k ≤ a < k + 5 → (rl_new <$> lr_log r) !! a = Some 0) →
       length (lr_log r) ≤ k + 5.

(** [r] is what follows the last occurrence of [sub] in [s]. *)
Definition after_last (sub s r : pystr) : Prop :=
  ∃ p, s = p ++ sub ++ r
       ∧ ∀ p' r', s = p' ++ sub ++ r' → length p' ≤ length p.

(** The topic rule in the specification's words: category "topic" and a
    non-empty slug, the remainder after the last "/topic/" with trailing
    slashes stripped. *)
Definition topic_slug_claim (source_url : pystr)
    (res : result (pystr * option pystr)) : Prop :=
  ∃ slug, res = Ret (py "topic", Some slug) ∧ slug ≠ []
          ∧ ∀ r, after_last (py "/topic/") source_url r →
                 slug = rstrip_chars (ch "/") r.

(** [core] is [t] without its leading and trailing whitespace. *)
Definition trimmed (t core : pystr) : Prop :=
  ∃ lead trail,
    t = lead ++ core ++ trail
    ∧ Forall (fun c => isspace c = true) lead
    ∧ Forall (fun c => isspace c = true) trail
    ∧ (∀ c, head core = Some c → isspace c = false)
    ∧ (∀ c, last core = Some c → isspace c = false).

(** The number of whitespace-delimited tokens of a string: the positions at
    which a character that is not whitespace starts the string or follows
    whitespace.  [after_ws] tells whether the previous character was
    whitespace (or there was none). *)
Fixpoint count_tokens_from (after_ws : bool) (s : pystr) : nat :=
  match s with
  | [] => 0
  | c :: s' =>
      (if negb (isspace c) && after_ws then 1 else 0)
      + count_tokens_from (isspace c) s'
  end.

Definition count_tokens (s : pystr) : nat := count_tokens_from true s.

(** The title in the specification's words: the first text of an h1 element
    that is not empty once trimmed, trimmed; absent when there is none. *)
Definition spec_title (h1_texts : list pystr) : option pystr :=
  head (filter (fun x => x ≠ []) (strip <$> h1_texts)).

(** ** Sample inputs *)

Definition sample_article : pystr := py "https://www.dhakapost.com/sports/12345".

Definition sample_response : ListResponse :=
  {| lresp_url := py "https://www.dhakapost.com/sports";
     lmeta_source := Some (py "https://www.dhakapost.com/sports");
     lmeta_category := Some (py "sports");
     lmeta_topic_slug := None |}.

Definition sample_meta : Meta := list_meta sample_response.

(** A [urlparse] that rejects every URL. *)
Definition urlparse_rejects : pystr → result pystr := fun _ => Raise ValueError.

(** A [urlparse] for URLs of the site without query or fragment: the path
    is what follows the host. *)
Definition urlparse_site : pystr → result pystr := fun u =>
  Ret (drop (length (py "https://www.dhakapost.com")) u).

(** A page that shows no article link and always offers the button. *)
Definition quiet_page : nat → RoundObs := fun _ =>
  {| ro_items := []; ro_role_count := 1; ro_role_recount := 1;
     ro_text_count := 0; ro_click_ok := true; ro_others := [] |}.

(** A page with one article link and no button. *)
Definition one_link_page : nat → RoundObs := fun _ =>
  {| ro_items := [Href sample_article]; ro_role_count := 0; ro_role_recount := 0;
     ro_text_count := 0; ro_click_ok := true; ro_others := [] |}.

(** A rendered article page: one heading, a date and three paragraph texts,
    one of them a boilerplate phrase. *)
Definition sample_selectors : Selectors :=
  {| css_h1_text := [py "  Dhaka wins  "];
     xpath_h1_text := [py "  Dhaka wins  "];
     xpath_author_any := [];
     xpath_author_p := [];
     css_time_text := [py " 4 Nov "];
     xpath_paras := [ py " first  line "; [2476; 2495; 2460; 2509; 2462; 2494; 2474; 2472]%N;
                      py "second" ] |}.

Definition sample_text_response : Response :=
  TextResponse sample_article (Some (py "sports")) None sample_selectors.

(** A page whose heading starts with a whitespace-only text node and whose
    paragraphs repeat a text and hold non-breaking spaces. *)
Definition spaced_selectors : Selectors :=
  {| css_h1_text := [py " "; py "Real title"];
     xpath_h1_text := [py " "; py "Real title"];
     xpath_author_any := [];
     xpath_author_p := [];
     css_time_text := [];
     xpath_paras := [ py " goal"; py "goal "; [160; 97; 160; 98; 160]%N ] |}.

Definition spaced_response : Response :=
  TextResponse sample_article (Some (py "sports")) None spaced_selectors.

(** The scheme test of [scrapy.Request], on the URL as it is given. *)
Definition request_needs_scheme : pystr → result unit := fun u =>
  if contains (py "://") u || startswith (py "about:") u
     || startswith (py "data:") u
  then Ret ()
  else Raise ValueError.

(** * Properties *)

(** ** Regular expressions: the matcher decides the language *)

Section RegexFacts.

Lemma lang_eps_iff s : lang Eps s ↔ s = [].
Proof. split; [by inversion 1 | intros ->; constructor]. Qed.

Lemma lang_lit_iff c s : lang (Lit c) s ↔ s = [c].
Proof. split; [by inversion 1 | intros ->; constructor]. Qed.

Lemma lang_seq_iff r1 r2 s :
  lang (Seq r1 r2) s ↔ ∃ s1 s2, s = s1 ++ s2 ∧ lang r1 s1 ∧ lang r2 s2.
Proof.
  split.
  - inversion 1; subst; eauto.
  - intros (s1 & s2 & -> & H1 & H2). by constructor.
Qed.

Lemma nullable_lang r : nullable r = true ↔ lang r [].
Proof.
  induction r; simpl; split; intros H;
    try discriminate; try (by constructor); try (by inversion H).
  - apply andb_true_iff in H as [H1 H2].
    change (@nil N) with (@nil N ++ []). constructor; [by apply IHr1 | by apply IHr2].
  - apply lang_seq_iff in H as (s1 & s2 & Heq & Ha & Hb).
    symmetry in Heq. apply app_eq_nil in Heq as [-> ->].
    apply andb_true_iff; split; [by apply IHr1 | by apply IHr2].
  - apply orb_true_iff in H as [H|H];
      [apply lang_alt_l; by apply IHr1 | apply lang_alt_r; by apply IHr2].
  - apply orb_true_iff. inversion H; subst; [left; by apply IHr1 | right; by apply IHr2].
Qed.

Lemma lang_star_cons_inv r c s :
  lang (Star r) (c :: s) →
  ∃ s1 s2, s = s1 ++ s2 ∧ lang r (c :: s1) ∧ lang (Star r) s2.
Proof.
  intros H. remember (Star r) as r' eqn:Hr. remember (c :: s) as t eqn:Ht.
  revert c s Ht. induction H as [| | | | | | |r0 s1 s2 H1 _ H2 IH2];
    try discriminate; intros c s Ht.
  injection Hr as ->.
  destruct s1 as [|d s1]; simpl in Ht.
  - by apply IH2.
  - injection Ht as -> <-. by exists s1, s2.
Qed.

Lemma deriv_lang c r s : lang (deriv c r) s ↔ lang r (c :: s).
Proof.
  revert s. induction r as [| |d|p|r1 IH1 r2 IH2|r1 IH1 r2 IH2|r IH];
    intros s; simpl.
  - split; intros H; inversion H.
  - split; intros H; inversion H.
  - destruct (N.eqb_spec c d) as [->|Hne]; split; intros H; inversion H; subst;
      try constructor; congruence.
  - destruct (p c) eqn:Hp; split; intros H; inversion H; subst;
      try (by constructor); congruence.
  - assert (Hseq : lang (Seq (deriv c r1) r2) s →  lang (Seq r1 r2) (c :: s)).
    { intros H. apply lang_seq_iff in H as (s1 & s2 & -> & Ha & Hb).
      change (c :: s1 ++ s2) with ((c :: s1) ++ s2).
      constructor; [by apply IH1 | done]. }
    destruct (nullable r1) eqn:Hn; split; intros H.
    + inversion H; subst; [by apply Hseq |].
      change (c :: s) with ([] ++ c :: s).
      constructor; [by apply nullable_lang | by apply IH2].
    + apply lang_seq_iff in H as (s1 & s2 & Heq & Ha & Hb).
      destruct s1 as [|d s1]; simpl in Heq.
      * subst s2. apply lang_alt_r. by apply IH2.
      * injection Heq as -> ->. apply lang_alt_l. apply lang_seq_iff. exists s1, s2. split; [done|]. split; [by apply IH1 | done].
    + by apply Hseq.
    + apply lang_seq_iff in H as (s1 & s2 & Heq & Ha & Hb).
      destruct s1 as [|d s1]; simpl in Heq.
      * apply nullable_lang in Ha. congruence.
      * injection Heq as -> ->. apply lang_seq_iff. exists s1, s2. split; [done|]. split; [by apply IH1 | done].
  - split; intros H; inversion H; subst;
      solve [apply lang_alt_l; by apply IH1 | apply lang_alt_r; by apply IH2].
  - split; intros H.
    + apply lang_seq_iff in H as (s1 & s2 & -> & Ha & Hb).
      change (c :: s1 ++ s2) with ((c :: s1) ++ s2).
      constructor; [by apply IH | done].
    + apply lang_star_cons_inv in H as (s1 & s2 & -> & Ha & Hb).
      constructor; [by apply IH | done].
Qed.

Lemma fullmatch_lang r s : fullmatch r s = true ↔ lang r s.
Proof.
  revert r. induction s as [|c s IH]; intros r; simpl.
  - apply nullable_lang.
  - rewrite IH. apply deriv_lang.
Qed.

Lemma lang_str_iff t s : lang (Str t) s ↔ s = t.
Proof.
  revert s. induction t as [|c t IH]; intros s; simpl.
  - apply lang_eps_iff.
  - rewrite lang_seq_iff. split.
    + intros (s1 & s2 & -> & H1 & H2).
      apply lang_lit_iff in H1 as ->. apply IH in H2 as ->. done.
    + intros ->. exists [c], t. split; [done|]. split; [constructor | by apply IH].
Qed.

Lemma lang_opt_lit_iff c s : lang (Opt (Lit c)) s ↔ s = [] ∨ s = [c].
Proof.
  unfold Opt. split.
  - inversion 1; subst.
    + right. by apply lang_lit_iff.
    + left. by apply lang_eps_iff.
  - intros [-> | ->]; [apply lang_alt_r | apply lang_alt_l]; constructor.
Qed.

Lemma lang_star_class_iff p s :
  lang (Star (Class p)) s ↔ Forall (fun c => p c = true) s.
Proof.
  split.
  - intros H. remember (Star (Class p)) as r eqn:Hr.
    induction H as [| | | | | | |r0 s1 s2 H1 _ H2 IH2]; try discriminate.
    + constructor.
    + injection Hr as ->. inversion H1; subst. constructor; [done | by apply IH2].
  - induction 1 as [|c s Hc _ IH].
    + constructor.
    + change (c :: s) with ([c] ++ s). constructor; [by constructor | done].
Qed.

Lemma lang_plus_class_iff p s :
  lang (Plus (Class p)) s ↔ s ≠ [] ∧ Forall (fun c => p c = true) s.
Proof.
  unfold Plus. rewrite lang_seq_iff. split.
  - intros (s1 & s2 & -> & H1 & H2). inversion H1; subst.
    apply lang_star_class_iff in H2. split; [done | by constructor].
  - intros [Hne Hall]. destruct s as [|c s]; [done|].
    inversion Hall; subst. exists [c], s. split; [done|].
    split; [by constructor | by apply lang_star_class_iff].
Qed.

End RegexFacts.

(** ** The article-URL pattern *)

(** Replace the ASCII literals of the goal by their code points. *)
Ltac py_eval :=
  repeat match goal with
    | |- context [py ?s] =>
        let v := eval vm_compute in (py s) in change (py s) with v
    | |- context [ch ?a] =>
        let v := eval vm_compute in (ch a) in change (ch a) with v
    end.

Ltac py_eval_in H :=
  repeat match type of H with
    | context [py ?s] =>
        let v := eval vm_compute in (py s) in change (py s) with v in H
    | context [ch ?a] =>
        let v := eval vm_compute in (ch a) in change (ch a) with v in H
    end.

Lemma not_slash_iff c : not_slash c = true ↔ c ≠ ch "/".
Proof.
  unfold not_slash. rewrite negb_true_iff. split.
  - intros H ->. by rewrite N.eqb_refl in H.
  - intros H. by apply N.eqb_neq.
Qed.

Lemma match_to_end_iff r u :
  match_to_end r u = true ↔ lang r u ∨ ∃ t, u = t ++ [10%N] ∧ lang r t.
Proof.
  unfold match_to_end. rewrite orb_true_iff, fullmatch_lang. split.
  - intros [H | H]; [by left | right].
    destruct (rev u) as [|c t] eqn:Hrev; [done|].
    apply andb_true_iff in H as [Hc Ht]. apply N.eqb_eq in Hc as ->.
    exists (rev t). split; [| by apply fullmatch_lang].
    rewrite <- (rev_involutive u), Hrev. done.
  - intros [H | (t & -> & H)]; [by left | right].
    rewrite rev_app_distr. simpl. rewrite rev_involutive.
    by apply fullmatch_lang.
Qed.

Lemma ARTICLE_RE_lang u :
  lang ARTICLE_RE u ↔
  ∃ s seg ds sl,
    u = py "http" ++ s ++ py "://www.dhakapost.com/" ++ seg ++ py "/" ++ ds ++ sl
    ∧ (s = [] ∨ s = py "s")
    ∧ seg ≠ [] ∧ Forall (fun c => c ≠ ch "/") seg
    ∧ ds ≠ [] ∧ Forall (fun c => isdecimal c = true) ds
    ∧ (sl = [] ∨ sl = py "/").
Proof.
  unfold ARTICLE_RE, Cat. cbn [foldr]. split.
  - intros H.
    apply lang_seq_iff in H as (a1 & r1 & -> & H1 & H).
    apply lang_seq_iff in H as (a2 & r2 & -> & H2 & H).
    apply lang_seq_iff in H as (a3 & r3 & -> & H3 & H).
    apply lang_seq_iff in H as (a4 & r4 & -> & H4 & H).
    apply lang_seq_iff in H as (a5 & r5 & -> & H5 & H).
    apply lang_seq_iff in H as (a6 & r6 & -> & H6 & H).
    apply lang_seq_iff in H as (a7 & r7 & -> & H7 & H).
    apply lang_seq_iff in H as (a8 & r8 & -> & H8 & H).
    apply lang_seq_iff in H as (a9 & r9 & -> & H9 & H).
    apply lang_seq_iff in H as (a10 & r10 & -> & H10 & H).
    apply lang_seq_iff in H as (a11 & r11 & -> & H11 & H).
    apply lang_str_iff in H1 as ->. apply lang_opt_lit_iff in H2.
    apply lang_str_iff in H3 as ->. apply lang_lit_iff in H4 as ->.
    apply lang_str_iff in H5 as ->. apply lang_lit_iff in H6 as ->.
    apply lang_str_iff in H7 as ->. apply lang_plus_class_iff in H8 as [H8 H8'].
    apply lang_lit_iff in H9 as ->. apply lang_plus_class_iff in H10 as [H10 H10'].
    apply lang_opt_lit_iff in H11. apply lang_eps_iff in H as ->.
    exists a2, a8, a10, a11. rewrite app_nil_r.
    split; [py_eval; simpl; reflexivity|].
    split; [done|]. split; [done|].
    split; [eapply Forall_impl; [exact H8' | intros c; apply not_slash_iff]|].
    done.
  - intros (s & seg & ds & sl & -> & Hs & Hseg & Hseg' & Hds & Hds' & Hsl).
    apply lang_seq_iff. exists (py "http"), (s ++ py "://www.dhakapost.com/" ++ seg ++ py "/" ++ ds ++ sl).
    split; [done|]. split; [by apply lang_str_iff|].
    apply lang_seq_iff. exists s, (py "://www.dhakapost.com/" ++ seg ++ py "/" ++ ds ++ sl).
    split; [done|]. split; [by apply lang_opt_lit_iff|].
    apply lang_seq_iff. exists (py "://www"), (py ".dhakapost.com/" ++ seg ++ py "/" ++ ds ++ sl).
    split; [done|]. split; [by apply lang_str_iff|].
    apply lang_seq_iff. exists [ch "."], (py "dhakapost.com/" ++ seg ++ py "/" ++ ds ++ sl).
    split; [done|]. split; [by apply lang_lit_iff|].
    apply lang_seq_iff. exists (py "dhakapost"), (py ".com/" ++ seg ++ py "/" ++ ds ++ sl).
    split; [done|]. split; [by apply lang_str_iff|].
    apply lang_seq_iff. exists [ch "."], (py "com/" ++ seg ++ py "/" ++ ds ++ sl).
    split; [done|]. split; [by apply lang_lit_iff|].
    apply lang_seq_iff. exists (py "com/"), (seg ++ py "/" ++ ds ++ sl).
    split; [done|]. split; [by apply lang_str_iff|].
    apply lang_seq_iff. exists seg, (py "/" ++ ds ++ sl).
    split; [done|]. split.
    { apply lang_plus_class_iff. split; [done|].
      eapply Forall_impl; [exact Hseg' | intros c; apply not_slash_iff]. }
    apply lang_seq_iff. exists [ch "/"], (ds ++ sl).
    split; [done|]. split; [by apply lang_lit_iff|].
    apply lang_seq_iff. exists ds, sl.
    split; [done|]. split; [by apply lang_plus_class_iff|].
    apply lang_seq_iff. exists sl, []. rewrite app_nil_r.
    split; [done|]. split; [by apply lang_opt_lit_iff | constructor].
Qed.

Lemma ARTICLE_RE_match_shape u :
  ARTICLE_RE_match u = true ↔ article_url_shape u.
Proof.
  unfold ARTICLE_RE_match, article_url_shape.
  rewrite match_to_end_iff. setoid_rewrite ARTICLE_RE_lang. split.
  - intros [(s & seg & ds & sl & -> & H) | (t & -> & s & seg & ds & sl & -> & H)].
    + exists s, seg, ds, sl, []. rewrite app_nil_r. split; [done|].
      destruct H as (? & ? & ? & ? & ? & ?). repeat (split; [done|]). by left.
    + exists s, seg, ds, sl, [10%N]. split; [by rewrite <- !app_assoc|].
      destruct H as (? & ? & ? & ? & ? & ?). repeat (split; [done|]). by right.
  - intros (s & seg & ds & sl & nl & -> & Hs & Hseg & Hseg' & Hds & Hds' & Hsl & [-> | ->]).
    + left. exists s, seg, ds, sl. by rewrite app_nil_r.
    + right. exists (py "http" ++ s ++ py "://www.dhakapost.com/" ++ seg ++ py "/" ++ ds ++ sl).
      split; [by rewrite <- !app_assoc|]. by exists s, seg, ds, sl.
Qed.

(** ** The link registry *)

Section Registry.

Implicit Types (m : Meta) (seen : gset pystr) (u : pystr).

Lemma visit_some m seen u r seen' :
  visit m seen u = (Some r, seen') ↔
  ARTICLE_RE_match u = true ∧ (u ∉ seen)
  ∧ r = {| req_url := u; req_meta := m |} ∧ seen' = {[u]} ∪ seen.
Proof.
  unfold visit. destruct (ARTICLE_RE_match u); simpl.
  - destruct (decide (u ∈ seen)); split.
    + discriminate.
    + intros (_ & ? & _); done.
    + intros [= <- <-]. done.
    + intros (_ & _ & -> & ->). done.
  - split; [discriminate | intros (? & _); discriminate].
Qed.

Lemma visit_none m seen u seen' :
  visit m seen u = (None, seen') ↔
  (ARTICLE_RE_match u = false ∨ u ∈ seen) ∧ seen' = seen.
Proof.
  unfold visit. destruct (ARTICLE_RE_match u); simpl.
  - destruct (decide (u ∈ seen)); split.
    + intros [= <-]. split; [by right | done].
    + intros [_ ->]. done.
    + discriminate.
    + intros [[? | ?] _]; [discriminate | done].
  - split; [intros [= <-]; split; [by left | done] | intros [_ ->]; done].
Qed.

Lemma visit_mono m seen u : seen ⊆ (visit m seen u).2.
Proof.
  destruct (visit m seen u) as [[r|] seen'] eqn:Hv; simpl.
  - apply visit_some in Hv as (_ & _ & _ & ->). set_solver.
  - apply visit_none in Hv as [_ ->]. done.
Qed.

(** Once a URL has gone through the loop body, no later pass yields it. *)
Lemma visit_settles m seen u :
  ARTICLE_RE_match u = false ∨ u ∈ (visit m seen u).2.
Proof.
  destruct (visit m seen u) as [[r|] seen'] eqn:Hv; simpl.
  - apply visit_some in Hv as (_ & _ & _ & ->). right. set_solver.
  - apply visit_none in Hv as [[?|?] ->]; [by left | by right].
Qed.

Lemma visit_settled m seen u :
  ARTICLE_RE_match u = false ∨ u ∈ seen → visit m seen u = (None, seen).
Proof. intros H. by apply visit_none. Qed.

Lemma run_visits_mono seen calls : seen ⊆ (run_visits seen calls).2.
Proof.
  revert seen. induction calls as [|[m u] calls IH]; intros seen; simpl; [done|].
  pose proof (visit_mono m seen u) as Hm.
  destruct (visit m seen u) as [r seen'] eqn:Hv. simpl in Hm.
  specialize (IH seen'). destruct (run_visits seen' calls) as [rs s]. simpl in *.
  set_solver.
Qed.

Lemma run_visits_length seen calls :
  length (run_visits seen calls).1 = length calls.
Proof.
  revert seen. induction calls as [|[m u] calls IH]; intros seen; simpl; [done|].
  destruct (visit m seen u) as [r seen'] eqn:Hv.
  specialize (IH seen'). destruct (run_visits seen' calls) as [rs s]. simpl in *.
  by rewrite IH.
Qed.

(** A settled URL stays settled: every later pass with it returns nothing. *)
Lemma run_visits_settled seen calls j m u :
  ARTICLE_RE_match u = false ∨ u ∈ seen →
  calls !! j = Some (m, u) →
  (run_visits seen calls).1 !! j = Some None.
Proof.
  revert seen j. induction calls as [|[m' u'] calls IH]; intros seen j Hs Hj;
    [done|]. simpl.
  pose proof (visit_mono m' seen u') as Hm.
  destruct (visit m' seen u') as [r seen'] eqn:Hv. simpl in Hm.
  destruct (run_visits seen' calls) as [rs s] eqn:Hr. simpl.
  destruct j as [|j]; simpl in *.
  - injection Hj as -> ->. rewrite visit_settled in Hv by done. by injection Hv as <- _.
  - specialize (IH seen' j). rewrite Hr in IH. apply IH; [|done].
    destruct Hs as [?|?]; [by left | right; set_solver].
Qed.

Lemma run_visits_again seen calls i j mi mj u :
  i < j → calls !! i = Some (mi, u) → calls !! j = Some (mj, u) →
  (run_visits seen calls).1 !! j = Some None.
Proof.
  revert seen i j. induction calls as [|[m' u'] calls IH]; intros seen i j Hij Hi Hj;
    [done|]. simpl.
  pose proof (visit_settles m' seen u') as Hs.
  destruct (visit m' seen u') as [r seen'] eqn:Hv. simpl in Hs.
  destruct (run_visits seen' calls) as [rs s] eqn:Hr. simpl.
  destruct j as [|j]; [lia|]. simpl in *.
  destruct i as [|i]; simpl in *.
  - injection Hi as -> ->.
    pose proof (run_visits_settled seen' calls j mj u Hs Hj) as H.
    by rewrite Hr in H.
  - specialize (IH seen' i j). rewrite Hr in IH. apply IH; [lia | done | done].
Qed.

(** The requests of a run: distinct URLs, none of them known beforehand. *)
Lemma run_visits_fresh seen calls :
  let rs := omap id (run_visits seen calls).1 in
  NoDup (req_url <$> rs)
  ∧ Forall (fun r => (req_url r ∉ seen) ∧ (req_url r ∈ (run_visits seen calls).2)) rs.
Proof.
  revert seen. induction calls as [|[m u] calls IH]; intros seen; simpl.
  { split; constructor. }
  destruct (visit m seen u) as [r seen'] eqn:Hv.
  specialize (IH seen'). pose proof (run_visits_mono seen' calls) as Hm.
  destruct (run_visits seen' calls) as [rs s]. simpl in *.
  destruct IH as [IH1 IH2]. destruct r as [r|]; simpl.
  - apply visit_some in Hv as (_ & Hnew & -> & ->). simpl. split.
    + constructor; [|done]. intros Hin.
      apply list_elem_of_fmap in Hin as (q & Hq & Hin).
      rewrite Forall_forall in IH2. destruct (IH2 q Hin) as [Hq' _].
      apply Hq'. rewrite <- Hq. set_solver.
    + constructor; [simpl; split; [done | set_solver]|].
      eapply Forall_impl; [exact IH2|]. simpl. intros q [? ?]. split; [set_solver | done].
  - apply visit_none in Hv as [_ ->]. done.
Qed.

Lemma harvest_inv m items seen rs seen' n :
  harvest m items seen = (rs, seen', n) →
  seen ⊆ seen' ∧ n = length rs ∧ NoDup (req_url <$> rs)
  ∧ Forall (fun r => req_meta r = m ∧ ARTICLE_RE_match (req_url r) = true
                     ∧ (req_url r ∉ seen) ∧ (req_url r ∈ seen')) rs.
Proof.
  revert seen rs seen' n.
  induction items as [|[u|u] items IH]; intros seen rs seen' n; simpl.
  - intros [= <- <- <-]. split; [done|]. split; [done|]. split; constructor.
  - destruct (visit m seen u) as [[r|] seen0] eqn:Hv.
    + apply visit_some in Hv as (Hmatch & Hnew & -> & ->).
      destruct (harvest m items ({[u]} ∪ seen)) as [[rs0 s0] n0] eqn:Hh.
      intros [= <- <- <-].
      destruct (IH _ _ _ _ Hh) as (Hsub & -> & Hnd & Hall). simpl.
      split; [set_solver|]. split; [done|]. split.
      * constructor; [|done]. intros Hin.
        apply list_elem_of_fmap in Hin as (q & Hq & Hin).
        rewrite Forall_forall in Hall. destruct (Hall q Hin) as (_ & _ & Hq' & _).
        apply Hq'. rewrite <- Hq. simpl. set_solver.
      * constructor.
        { simpl. split; [done|]. split; [done|]. split; [done | set_solver]. }
        eapply Forall_impl; [exact Hall|]. simpl.
        intros q (? & ? & ? & ?). split; [done|]. split; [done|].
        split; [set_solver | done].
    + apply visit_none in Hv as [_ ->]. apply IH.
  - intros Hh. destruct (IH _ _ _ _ Hh) as (Hsub & -> & Hnd & Hall).
    split; [set_solver|]. split; [done|]. split; [done|].
    eapply Forall_impl; [exact Hall|]. simpl.
    intros q (? & ? & ? & ?). split; [done|]. split; [done|].
    split; [set_solver | done].
Qed.

Lemma harvest_app m a b seen :
  harvest m (a ++ b) seen =
  let '(rs1, s1, n1) := harvest m a seen in
  let '(rs2, s2, n2) := harvest m b s1 in
  (rs1 ++ rs2, s2, n1 + n2).
Proof.
  revert seen. induction a as [|[u|u] a IH]; intros seen; simpl.
  - by destruct (harvest m b seen) as [[rs2 s2] n2].
  - destruct (visit m seen u) as [[r|] seen0].
    + rewrite IH. destruct (harvest m a seen0) as [[rs1 s1] n1].
      by destruct (harvest m b s1) as [[rs2 s2] n2].
    + apply IH.
  - apply IH.
Qed.

End Registry.

(** ** The pagination loop *)

Section Pagination.

Implicit Types (m : Meta) (seen : gset pystr) (page : nat → RoundObs).

Lemma add_all_mono us seen : seen ⊆ add_all us seen.
Proof. unfold add_all. set_solver. Qed.

(** One round of the loop, as an equation. *)
Lemma parse_list_loop_S m page n i last st seen :
  parse_list_loop m page (S n) i last st seen =
  if target_unique_links <=? size seen then
    {| lr_requests := []; lr_log := []; lr_seen := seen; lr_stop := TargetReached |}
  else
    let obs := page i in
    let '(reqs, seen1, new_count) := harvest m (ro_items obs) seen in
    let entry := {| rl_click := i + 1;
                    rl_links := length (hrefs_of (ro_items obs));
                    rl_new := new_count;
                    rl_total := size seen1 |} in
    let stale_rounds' := if size seen1 =? last then st + 1 else 0 in
    let last_total' := if size seen1 =? last then last else size seen1 in
    let final_count :=
      if ro_role_count obs =? 0 then ro_text_count obs else ro_role_recount obs in
    let stop_here (why : Stop) :=
      {| lr_requests := reqs; lr_log := [entry]; lr_seen := seen1; lr_stop := why |} in
    if stale_limit <=? stale_rounds' then stop_here StaleLimit
    else if final_count =? 0 then stop_here NoControl
    else if negb (ro_click_ok obs) then stop_here ClickFailed
    else
      let r := parse_list_loop m page n (S i) last_total' stale_rounds'
                 (add_all (ro_others obs) seen1) in
      {| lr_requests := reqs ++ lr_requests r;
         lr_log := entry :: lr_log r;
         lr_seen := lr_seen r;
         lr_stop := lr_stop r |}.
Proof. reflexivity. Qed.

Lemma stale_limit_eq : stale_limit = 5.
Proof. reflexivity. Qed.

#[local] Opaque target_unique_links stale_limit.

(** What every request of the loop satisfies, and the bound on its rounds. *)
Lemma parse_list_loop_inv m page n i last st seen :
  let r := parse_list_loop m page n i last st seen in
  seen ⊆ lr_seen r
  ∧ NoDup (req_url <$> lr_requests r)
  ∧ Forall (fun q => req_meta q = m ∧ ARTICLE_RE_match (req_url q) = true
                     ∧ (req_url q ∉ seen) ∧ (req_url q ∈ lr_seen r))
           (lr_requests r)
  ∧ length (lr_log r) ≤ n.
Proof.
  revert i last st seen. induction n as [|n IH]; intros i last st seen.
  { simpl. split; [done|]. split; [constructor|]. split; [constructor | done]. }
  rewrite parse_list_loop_S.
  destruct (target_unique_links <=? size seen).
  { simpl. split; [done|]. split; [constructor|]. split; [constructor | lia]. }
  cbv zeta.
  destruct (harvest m (ro_items (page i)) seen) as [[reqs seen1] nc] eqn:Hh.
  apply harvest_inv in Hh as (Hsub & -> & Hnd & Hall).
  destruct (stale_limit <=? _);
    [simpl; split; [done|]; split; [done|]; split; [done | lia] |].
  destruct (_ =? 0);
    [simpl; split; [done|]; split; [done|]; split; [done | lia] |].
  destruct (negb _);
    [simpl; split; [done|]; split; [done|]; split; [done | lia] |].
  simpl.
  match goal with |- context [parse_list_loop m page n ?i' ?last' ?st' ?s'] =>
    specialize (IH i' last' st' s'); set (r := parse_list_loop m page n i' last' st' s') in *
  end.
  simpl in IH. destruct IH as (Hsub' & Hnd' & Hall' & Hlen).
  pose proof (add_all_mono (ro_others (page i)) seen1) as Hadd.
  split; [set_solver|]. split.
  - rewrite fmap_app. apply NoDup_app. split; [done|]. split; [|done].
    intros x Hx1 Hx2.
    apply list_elem_of_fmap in Hx1 as (q1 & -> & Hq1).
    apply list_elem_of_fmap in Hx2 as (q2 & Heq & Hq2).
    rewrite Forall_forall in Hall, Hall'.
    destruct (Hall q1 Hq1) as (_ & _ & _ & Hin1).
    destruct (Hall' q2 Hq2) as (_ & _ & Hnin2 & _).
    apply Hnin2. rewrite <- Heq. set_solver.
  - split; [|lia]. apply Forall_app. split.
    + eapply Forall_impl; [exact Hall|]. simpl.
      intros q (? & ? & ? & ?). split; [done|]. split; [done|].
      split; [done | set_solver].
    + eapply Forall_impl; [exact Hall'|]. simpl.
      intros q (? & ? & ? & ?). split; [done|]. split; [done|].
      split; [set_solver | done].
Qed.

(** With the target reached, a round does not start. *)
Lemma parse_list_loop_target m page n i last st seen :
  target_unique_links ≤ size seen →
  let r := parse_list_loop m page n i last st seen in
  lr_requests r = [] ∧ lr_log r = [] ∧ lr_seen r = seen
  ∧ (n ≠ 0 → lr_stop r = TargetReached).
Proof.
  intros Ht. destruct n as [|n]; [done|]. rewrite parse_list_loop_S.
  apply Nat.leb_le in Ht. rewrite Ht. done.
Qed.

(** A first round that runs and is followed by another leaves the registry
    size it logged as [last_total], with fewer than five stale rounds. *)
Lemma parse_list_loop_step m page n i last st seen e l :
  lr_log (parse_list_loop m page (S n) i last st seen) = e :: l →
  l = [] ∨
  ∃ st' seen', st' < stale_limit
    ∧ (rl_total e = last → st' = st + 1)
    ∧ rl_total e ≤ size seen'
    ∧ l = lr_log (parse_list_loop m page n (S i) (rl_total e) st' seen').
Proof.
  rewrite parse_list_loop_S.
  destruct (target_unique_links <=? size seen); [done|]. cbv zeta.
  destruct (harvest m (ro_items (page i)) seen) as [[reqs seen1] nc] eqn:Hh.
  destruct (stale_limit <=? _) eqn:Hst; [simpl; intros [= <- <-]; by left|].
  destruct (_ =? 0); [simpl; intros [= <- <-]; by left|].
  destruct (negb _); [simpl; intros [= <- <-]; by left|].
  simpl. intros [= <- <-]. right. simpl.
  apply Nat.leb_gt in Hst.
  pose proof (subseteq_size _ _ (add_all_mono (ro_others (page i)) seen1)) as Hsz.
  destruct (size seen1 =? last) eqn:Heq.
  - apply Nat.eqb_eq in Heq. rewrite Heq in *. eauto 10.
  - apply Nat.eqb_neq in Heq. eexists _, _. split; [exact Hst|].
    split; [done|]. split; [exact Hsz | done].
Qed.

(** Every round but the last of the loop logged a size below the target. *)
Lemma parse_list_loop_below_target m page n i last st seen k e :
  lr_log (parse_list_loop m page n i last st seen) !! k = Some e →
  S k < length (lr_log (parse_list_loop m page n i last st seen)) →
  rl_total e < target_unique_links.
Proof.
  revert n i last st seen. induction k as [|k IH]; intros n i last st seen Hk Hlen.
  - destruct n as [|n]; [done|].
    destruct (lr_log (parse_list_loop m page (S n) i last st seen)) as [|e0 l] eqn:Hlog;
      [done|].
    simpl in Hk. injection Hk as ->.
    apply parse_list_loop_step in Hlog as [-> | (st' & seen' & _ & _ & Hsz & ->)];
      [simpl in Hlen; lia|].
    destruct (Nat.lt_ge_cases (size seen') target_unique_links) as [?|Hge]; [lia|].
    destruct (parse_list_loop_target m page n (S i) (rl_total e) st' seen' Hge)
      as (_ & Hnil & _).
    rewrite Hnil in Hlen. simpl in Hlen. lia.
  - destruct n as [|n]; [done|].
    destruct (lr_log (parse_list_loop m page (S n) i last st seen)) as [|e0 l] eqn:Hlog;
      [done|].
    simpl in Hk, Hlen.
    apply parse_list_loop_step in Hlog as [-> | (st' & seen' & _ & _ & _ & ->)];
      [done|].
    apply (IH n (S i) (rl_total e0) st' seen' Hk). lia.
Qed.

(** Rounds that keep the size at [last_total] are counted up to the limit. *)
Lemma parse_list_loop_stale m page j n i last st seen :
  st < stale_limit → stale_limit ≤ st + j →
  let totals := rl_total <$> lr_log (parse_list_loop m page n i last st seen) in
  (∀ a, a < j → totals !! a = Some last) →
  length totals ≤ j.
Proof.
  revert n i st seen. induction j as [|j IH]; intros n i st seen Hst Hj; simpl;
    [lia|].
  intros Hall.
  destruct n as [|n]; [simpl; lia|].
  destruct (lr_log (parse_list_loop m page (S n) i last st seen)) as [|e l] eqn:Hlog;
    [simpl; lia|].
  pose proof (Hall 0 ltac:(lia)) as H0. simpl in H0. injection H0 as H0.
  apply parse_list_loop_step in Hlog as [-> | (st' & seen' & Hst' & Hinc & _ & ->)];
    [simpl; lia|].
  specialize (Hinc H0). subst st'. rewrite H0.
  simpl. apply le_n_S. apply (IH n (S i) (st + 1) seen'); [done | lia |].
  intros a Ha. specialize (Hall (S a) ltac:(lia)). simpl in Hall.
  by rewrite H0 in Hall.
Qed.

(** Six equal entries in a row of the sizes [last_total :: totals] end the
    log: the fifth round after the first of them is the last one. *)
Lemma parse_list_loop_unchanged m page k n i last st seen N :
  st < stale_limit →
  let totals := rl_total <$> lr_log (parse_list_loop m page n i last st seen) in
  (∀ a, k ≤ a ≤ k + 5 → (last :: totals) !! a = Some N) →
  length totals = k + 5.
Proof.
  revert n i last st seen. induction k as [|k IH]; intros n i last st seen Hst; simpl;
    intros Hall.
  - pose proof (Hall 0 ltac:(lia)) as H0. simpl in H0. injection H0 as ->.
    apply Nat.le_antisymm.
    + apply (parse_list_loop_stale m page 5 n i N st seen Hst);
        [rewrite stale_limit_eq; lia|].
      intros a Ha. apply (Hall (S a)). lia.
    + pose proof (Hall 5 ltac:(lia)) as H5. simpl in H5.
      apply lookup_lt_Some in H5. lia.
  - destruct n as [|n].
    { specialize (Hall (S k) ltac:(lia)). simpl in Hall. by destruct k. }
    destruct (lr_log (parse_list_loop m page (S n) i last st seen)) as [|e l] eqn:Hlog.
    { specialize (Hall (S k) ltac:(lia)). simpl in Hall. by destruct k. }
    apply parse_list_loop_step in Hlog as [-> | (st' & seen' & Hst' & _ & _ & ->)].
    { specialize (Hall (S (S k)) ltac:(lia)). simpl in Hall. by destruct k. }
    simpl. f_equal.
    apply (IH n (S i) (rl_total e) st' seen' Hst').
    intros a Ha. specialize (Hall (S a) ltac:(lia)). done.
Qed.

(** The same for a whole [parse_list] call. *)
Lemma parse_list_inv response page seen :
  seen ⊆ lr_seen (parse_list response page seen)
  ∧ NoDup (req_url <$> lr_requests (parse_list response page seen))
  ∧ Forall (fun q => req_meta q = list_meta response
                     ∧ ARTICLE_RE_match (req_url q) = true
                     ∧ (req_url q ∉ seen)
                     ∧ (req_url q ∈ lr_seen (parse_list response page seen)))
           (lr_requests (parse_list response page seen))
  ∧ length (lr_log (parse_list response page seen)) ≤ max_clicks_per_source.
Proof.
  unfold parse_list.
  exact (parse_list_loop_inv (list_meta response) page max_clicks_per_source
           0 0 0 seen).
Qed.

End Pagination.

(** ** Claims about the registry and the pagination loop *)

(** C1. A URL passes the check-and-insert on [seen_links] at most once in a
    run: whoever the callers are, every later pass with the same URL yields
    nothing; the set only grows; so the article requests of a run, and of
    every [parse_list] call under any interleaving, have distinct URLs that
    were not in the set before. *)
Theorem seen_links_admits_each_url_once :
  (∀ seen calls i j mi mj u,
      i < j → calls !! i = Some (mi, u) → calls !! j = Some (mj, u) →
      (run_visits seen calls).1 !! j = Some None)
  ∧ (∀ seen calls, seen ⊆ (run_visits seen calls).2)
  ∧ (∀ calls, NoDup (req_url <$> omap id (run_visits seen_links_init calls).1))
  ∧ (∀ response page seen,
       let r := parse_list response page seen in
       seen ⊆ lr_seen r
       ∧ NoDup (req_url <$> lr_requests r)
       ∧ ∀ q, q ∈ lr_requests r → (req_url q ∉ seen) ∧ (req_url q ∈ lr_seen r)).
Proof.
  split; [intros; by eapply run_visits_again|].
  split; [apply run_visits_mono|].
  split; [intros calls; apply (run_visits_fresh seen_links_init calls)|].
  intros response page seen r. subst r. unfold parse_list.
  destruct (parse_list_loop_inv (list_meta response) page max_clicks_per_source
              0 0 0 seen) as (Hsub & Hnd & Hall & _).
  split; [exact Hsub|]. split; [exact Hnd|].
  intros q Hq. rewrite Forall_forall in Hall.
  destruct (Hall q Hq) as (_ & _ & Hq1 & Hq2). split; [exact Hq1 | exact Hq2].
Qed.

Lemma seen_links_admits_each_url_once_witness :
  (run_visits seen_links_init
     [(sample_meta, sample_article); (sample_meta, sample_article)]).1 !! 1
  = Some None.
Proof.
  apply (proj1 seen_links_admits_each_url_once seen_links_init _ 0 1
           sample_meta sample_meta sample_article);
    [lia | reflexivity | reflexivity].
Defined.

(** C2, as amended.  The loop of [parse_list] runs at most 80 rounds whatever
    the page answers; it ends with the fifth round in a row that leaves the
    registry at the size the round before left it (the initial [last_total]
    is 0, so the first round is one of them when the registry is still
    empty); and a round does not start once the registry holds 2100 URLs, so
    every round but the last logged fewer. *)
Theorem parse_list_rounds_bounded response page seen :
  let r := parse_list response page seen in
  length (lr_log r) ≤ max_clicks_per_source
  ∧ (∀ k N,
       (∀ a, k ≤ a ≤ k + stale_limit →
             (0 :: (rl_total <$> lr_log r)) !! a = Some N) →
       length (lr_log r) = k + stale_limit)
  ∧ (∀ m n i last st,
       target_unique_links ≤ size seen →
       let r' := parse_list_loop m page n i last st seen in
       lr_requests r' = [] ∧ lr_log r' = [] ∧ lr_seen r' = seen
       ∧ (n ≠ 0 → lr_stop r' = TargetReached))
  ∧ (∀ k e, lr_log r !! k = Some e → S k < length (lr_log r) →
            rl_total e < target_unique_links).
Proof.
  intros r. subst r. unfold parse_list. split.
  { destruct (parse_list_loop_inv (list_meta response) page
                max_clicks_per_source 0 0 0 seen) as (_ & _ & _ & Hlen).
    exact Hlen. }
  split.
  - intros k N Hall.
    pose proof (parse_list_loop_unchanged (list_meta response) page k
                  max_clicks_per_source 0 0 0 seen N) as H.
    cbv zeta in H. rewrite length_fmap in H. apply H; [rewrite stale_limit_eq; lia|].
    exact Hall.
  - split.
    + intros m n i last st Ht.
      exact (parse_list_loop_target m page n i last st seen Ht).
    + intros k e. apply parse_list_loop_below_target.
Qed.

Lemma parse_list_rounds_bounded_witness :
  length (lr_log (parse_list sample_response quiet_page seen_links_init)) = 0 + stale_limit.
Proof.
  apply (proj1 (proj2 (parse_list_rounds_bounded sample_response quiet_page
                         seen_links_init)) 0 0).
  intros a Ha. unfold stale_limit in Ha.
  assert (a = 0 ∨ a = 1 ∨ a = 2 ∨ a = 3 ∨ a = 4 ∨ a = 5) as Hcases by lia.
  destruct Hcases as [-> | [-> | [-> | [-> | [-> | ->]]]]]; vm_compute; reflexivity.
Defined.

(** C2 as stated fails: with one URL already in the registry, five rounds in
    a row without a new link are followed by a sixth round. *)
Lemma stale_rounds_counterexample :
  ¬ stops_after_stale_rounds
      (parse_list sample_response quiet_page {[ sample_article ]}).
Proof.
  intros H. specialize (H 0).
  assert (Hlen : length (lr_log (parse_list sample_response quiet_page
                                   {[ sample_article ]})) = 6)
    by (vm_compute; reflexivity).
  rewrite Hlen in H. enough (6 ≤ 0 + 5) by lia. apply H.
  intros a Ha.
  assert (a = 0 ∨ a = 1 ∨ a = 2 ∨ a = 3 ∨ a = 4) as Hcases by lia.
  destruct Hcases as [-> | [-> | [-> | [-> | ->]]]]; vm_compute; reflexivity.
Qed.

(** C3, as amended.  Walking the hrefs of a round, the loop yields a request
    for an href exactly when the href matches [ARTICLE_RE] (scheme http or
    https, host www.dhakapost.com, one non-slash segment, a slash, digits, an
    optional slash, an optional final newline) and is not in the registry at
    that moment; the request carries the [meta] of the listing, whose
    category and topic slug are those of the listing response. *)
Theorem harvest_yields_new_article_urls :
  (∀ m pre u post seen,
     ∃ rs1 seen1 n1,
       harvest m pre seen = (rs1, seen1, n1)
       ∧ (harvest m (pre ++ Href u :: post) seen).1.1
         = rs1
           ++ (if ARTICLE_RE_match u && bool_decide (u ∉ seen1)
               then [ {| req_url := u; req_meta := m |} ] else [])
           ++ (harvest m post (visit m seen1 u).2).1.1)
  ∧ (∀ u, ARTICLE_RE_match u = true ↔ article_url_shape u)
  ∧ (∀ response page seen q,
       q ∈ lr_requests (parse_list response page seen) →
       category (req_meta q) = default (py "unknown") (lmeta_category response)
       ∧ topic_slug (req_meta q) = lmeta_topic_slug response).
Proof.
  split; [|split].
  - intros m pre u post seen.
    destruct (harvest m pre seen) as [[rs1 seen1] n1] eqn:Hpre.
    exists rs1, seen1, n1. split; [done|].
    rewrite harvest_app, Hpre. simpl.
    destruct (visit m seen1 u) as [[r|] seen0] eqn:Hv; simpl.
    + apply visit_some in Hv as (-> & Hnew & -> & ->).
      rewrite bool_decide_eq_true_2 by done. simpl.
      by destruct (harvest m post ({[u]} ∪ seen1)) as [[rs2 s2] n2].
    + apply visit_none in Hv as [Hv ->].
      replace (ARTICLE_RE_match u && bool_decide (u ∉ seen1)) with false.
      * by destruct (harvest m post seen1) as [[rs2 s2] n2].
      * destruct Hv as [-> | Hin]; [done|].
        rewrite bool_decide_eq_false_2 by (intros Hn; by apply Hn).
        by rewrite andb_false_r.
  - apply ARTICLE_RE_match_shape.
  - intros response page seen q Hq.
    destruct (parse_list_inv response page seen) as (_ & _ & Hall & _).
    rewrite Forall_forall in Hall. destruct (Hall q Hq) as (Hmeta & _).
    rewrite Hmeta. split; reflexivity.
Qed.

Lemma harvest_yields_new_article_urls_witness :
  category (req_meta {| req_url := sample_article; req_meta := sample_meta |})
  = default (py "unknown") (lmeta_category sample_response)
  ∧ topic_slug (req_meta {| req_url := sample_article; req_meta := sample_meta |})
    = lmeta_topic_slug sample_response.
Proof.
  apply (proj2 (proj2 harvest_yields_new_article_urls) sample_response
           one_link_page seen_links_init).
  vm_compute. apply list_elem_of_here.
Defined.

(** C3 as stated fails: an href on another host whose path is one segment, a
    slash and digits, and that is not in the registry, gets no request. *)
Lemma offsite_href_counterexample :
  spec_path_shape (py "/news/123") = true
  ∧ (py "https://example.com" ++ py "/news/123" ∉ seen_links_init)
  ∧ (harvest sample_meta [Href (py "https://example.com" ++ py "/news/123")]
       seen_links_init).1.1 = [].
Proof.
  split; [vm_compute; reflexivity|].
  split; [apply not_elem_of_empty | vm_compute; reflexivity].
Qed.

(** C10. Every article request that [parse_list] yields goes to scheme http
    or https and host www.dhakapost.com. *)
Theorem requests_stay_on_www_dhakapost response page seen q :
  q ∈ lr_requests (parse_list response page seen) →
  ∃ scheme rest,
    req_url q = scheme ++ py "://" ++ py "www.dhakapost.com" ++ py "/" ++ rest
    ∧ (scheme = py "http" ∨ scheme = py "https").
Proof.
  intros Hq.
  destruct (parse_list_inv response page seen) as (_ & _ & Hall & _).
  rewrite Forall_forall in Hall. destruct (Hall q Hq) as (_ & Hm & _).
  apply ARTICLE_RE_match_shape in Hm
    as (s & seg & ds & sl & nl & -> & Hs & _).
  exists (py "http" ++ s), (seg ++ py "/" ++ ds ++ sl ++ nl). split.
  - rewrite <- !app_assoc. reflexivity.
  - destruct Hs as [-> | ->]; [left | right]; reflexivity.
Qed.

Lemma requests_stay_on_www_dhakapost_witness :
  ∃ scheme rest,
    sample_article = scheme ++ py "://" ++ py "www.dhakapost.com" ++ py "/" ++ rest
    ∧ (scheme = py "http" ∨ scheme = py "https").
Proof.
  apply (requests_stay_on_www_dhakapost sample_response one_link_page
           seen_links_init {| req_url := sample_article; req_meta := sample_meta |}).
  vm_compute. apply list_elem_of_here.
Defined.

(** ** Python string operations *)

Section StringFacts.

Implicit Types (s t sub sep pre : pystr) (p : char → bool).

Lemma startswith_iff pre s : startswith pre s = true ↔ ∃ t, s = pre ++ t.
Proof.
  revert s. induction pre as [|a pre IH]; intros s; simpl.
  - split; [by exists s | done].
  - destruct s as [|b s].
    + split; [done | intros (t & Ht); discriminate].
    + rewrite andb_true_iff, IH, N.eqb_eq. split.
      * intros (-> & t & ->). by exists t.
      * intros (t & [= -> ->]). split; [done | by exists t].
Qed.

Lemma find_unfold sub s :
  find sub s =
  if startswith sub s then Some 0
  else match s with [] => None | _ :: s' => S <$> find sub s' end.
Proof. by destruct s. Qed.

(** [find] returns the leftmost occurrence. *)
Lemma find_Some sub s i :
  find sub s = Some i →
  ∃ b a, s = b ++ sub ++ a ∧ length b = i
         ∧ ∀ b' a', s = b' ++ sub ++ a' → i ≤ length b'.
Proof.
  revert i. induction s as [|c s IH]; intros i; rewrite find_unfold.
  - destruct (startswith sub []) eqn:Hs; [|done].
    intros [= <-]. apply startswith_iff in Hs as (t & Ht).
    exists [], t. split; [done|]. split; [done|]. intros; lia.
  - destruct (startswith sub (c :: s)) eqn:Hs.
    + intros [= <-]. apply startswith_iff in Hs as (t & Ht).
      exists [], t. split; [done|]. split; [done|]. intros; lia.
    + destruct (find sub s) as [i'|] eqn:Hf; [|done]. simpl. intros [= <-].
      destruct (IH i' eq_refl) as (b & a & -> & <- & Hmin).
      exists (c :: b), a. split; [done|]. split; [done|].
      intros b' a' Heq. destruct b' as [|c' b'].
      * simpl in Heq. assert (startswith sub (c :: b ++ sub ++ a) = true) as Hs'
          by (apply startswith_iff; by exists a').
        congruence.
      * simpl in Heq. injection Heq as -> Heq. simpl.
        apply le_n_S. by eapply Hmin.
Qed.

Lemma find_None sub s b a : find sub s = None → s ≠ b ++ sub ++ a.
Proof.
  revert b. induction s as [|c s IH]; intros b; rewrite find_unfold.
  - destruct (startswith sub []) eqn:Hs; [done|]. intros _ Heq.
    symmetry in Heq. apply app_eq_nil in Heq as [-> Heq]. simpl in Heq.
    assert (startswith sub [] = true) by (apply startswith_iff; by exists a).
    congruence.
  - destruct (startswith sub (c :: s)) eqn:Hs; [done|].
    destruct (find sub s) eqn:Hf; [done|]. intros _ Heq.
    destruct b as [|c' b]; simpl in Heq.
    + assert (startswith sub (c :: s) = true) by (apply startswith_iff; by exists a).
      congruence.
    + injection Heq as -> Heq. by eapply IH.
Qed.

Lemma contains_iff sub s : contains sub s = true ↔ ∃ b a, s = b ++ sub ++ a.
Proof.
  unfold contains. destruct (find sub s) as [i|] eqn:Hf; split; try done.
  - intros _. apply find_Some in Hf as (b & a & -> & _). by exists b, a.
  - intros (b & a & Heq). by eapply find_None in Hf.
Qed.

(** Fuel beyond the length of the string changes nothing. *)
Lemma split_fuel_enough sep s f :
  sep ≠ [] → length s ≤ f → split_fuel f sep s = split_fuel (length s) sep s.
Proof.
  intros Hsep. revert s. induction f as [f IH] using lt_wf_ind.
  intros s Hlen. destruct f as [|f].
  - destruct s; [done | simpl in Hlen; lia].
  - destruct s as [|c s].
    + cbn [split_fuel length]. destruct (find sep []) as [i|] eqn:Hf; [|done].
      apply find_Some in Hf as (b & a & Heq & _).
      symmetry in Heq. apply app_eq_nil in Heq as [_ Heq].
      apply app_eq_nil in Heq as [? _]. done.
    + cbn [split_fuel length].
      destruct (find sep (c :: s)) as [i|] eqn:Hf; [|done].
      apply find_Some in Hf as (b & a & Heq & <- & _).
      rewrite Heq, (assoc_L (++)), drop_app_length'
        by (by rewrite length_app).
      assert (length a < length (c :: s)) as Hlt.
      { rewrite Heq, !length_app. destruct sep; [done | simpl; lia]. }
      simpl in Hlt, Hlen. f_equal.
      rewrite (IH f ltac:(lia) a ltac:(lia)).
      rewrite (IH (length s) ltac:(lia) a ltac:(lia)). done.
Qed.

(** [split] as the scan it is: cut at the leftmost separator and go on. *)
Lemma split_unfold sep s :
  sep ≠ [] →
  split sep s =
  match find sep s with
  | None => [s]
  | Some i => take i s :: split sep (drop (i + length sep) s)
  end.
Proof.
  intros Hsep. unfold split. destruct s as [|c s].
  - cbn [split_fuel length]. destruct (find sep []) as [i|] eqn:Hf; [|done].
    apply find_Some in Hf as (b & a & Heq & _).
    symmetry in Heq. apply app_eq_nil in Heq as [_ Heq].
    apply app_eq_nil in Heq as [? _]. done.
  - cbn [split_fuel length].
    destruct (find sep (c :: s)) as [i|] eqn:Hf; [|done].
    f_equal. apply split_fuel_enough; [done|].
    apply find_Some in Hf as (b & a & Heq & <- & _).
    rewrite Heq, (assoc_L (++)), drop_app_length' by (by rewrite length_app).
    apply (f_equal length) in Heq. rewrite !length_app in Heq. simpl in Heq.
    destruct sep; [done | simpl in *; lia].
Qed.

Lemma split_cut sep b a :
  sep ≠ [] → find sep (b ++ sep ++ a) = Some (length b) →
  split sep (b ++ sep ++ a) = b :: split sep a.
Proof.
  intros Hsep Hf. rewrite split_unfold, Hf by done.
  rewrite take_app_length. f_equal. f_equal.
  by rewrite (assoc_L (++)), drop_app_length' by (by rewrite length_app).
Qed.

Lemma split_not_nil sep s : split sep s ≠ [].
Proof. unfold split. destruct (length s); simpl; [done|]. by destruct (find sep s). Qed.

Lemma last_piece_cons x l : l ≠ [] → last_piece (x :: l) = last_piece l.
Proof. by destruct l. Qed.

Lemma dropWhile_all p s : dropWhile p s = [] ↔ Forall (fun c => p c = true) s.
Proof.
  induction s as [|c s IH]; simpl; [by split; [constructor|]|].
  destruct (p c) eqn:Hp.
  - rewrite IH. split; [by constructor | by inversion 1].
  - split; [done | inversion 1; congruence].
Qed.

Lemma dropWhile_head p s c t : dropWhile p s = c :: t → p c = false.
Proof.
  induction s as [|d s IH]; simpl; [done|].
  destruct (p d) eqn:Hp; [done | by intros [= -> _]].
Qed.

Lemma dropWhile_split p s :
  ∃ k, s = k ++ dropWhile p s ∧ Forall (fun c => p c = true) k.
Proof.
  induction s as [|c s (k & Hk & Hall)]; simpl; [by exists []|].
  destruct (p c) eqn:Hp.
  - exists (c :: k). split; [by rewrite Hk at 1 | by constructor].
  - by exists [].
Qed.

(** [rstrip]: what is removed is a run of strippable characters, and what
    is left does not end in one. *)
Lemma rstrip_by_split p s :
  ∃ k, s = rstrip_by p s ++ k ∧ Forall (fun c => p c = true) k.
Proof.
  unfold rstrip_by. destruct (dropWhile_split p (rev s)) as (k & Hk & Hall).
  exists (rev k). split; [|by apply Forall_rev].
  rewrite <- rev_app_distr, <- Hk. by rewrite rev_involutive.
Qed.

Lemma rstrip_by_last p s c : last (rstrip_by p s) = Some c → p c = false.
Proof.
  unfold rstrip_by. destruct (dropWhile p (rev s)) as [|d t] eqn:Hd; [done|].
  simpl. rewrite last_snoc. intros [= <-]. by eapply dropWhile_head.
Qed.

Lemma rstrip_by_nil p s : rstrip_by p s = [] ↔ Forall (fun c => p c = true) s.
Proof.
  unfold rstrip_by. split.
  - intros H. apply (f_equal (@rev N)) in H. rewrite rev_involutive in H.
    simpl in H. apply dropWhile_all in H. apply Forall_rev in H. by rewrite rev_involutive in H.
  - intros H. apply Forall_rev in H. apply dropWhile_all in H.
    exact (f_equal (@rev N) H).
Qed.

Lemma rstrip_by_app p a r :
  rstrip_by p r ≠ [] → rstrip_by p (a ++ r) = a ++ rstrip_by p r.
Proof.
  unfold rstrip_by. intros Hne. rewrite rev_app_distr.
  assert (dropWhile p (rev r) ≠ []) as Hne'.
  { intros H. rewrite H in Hne. done. }
  assert (∀ x y, dropWhile p x ≠ [] → dropWhile p (x ++ y) = dropWhile p x ++ y)
    as Happ.
  { intros x y. induction x as [|c x IH]; simpl; [done|].
    destruct (p c); [exact IH | done]. }
  rewrite Happ by done. by rewrite rev_app_distr, rev_involutive.
Qed.

(** No occurrence is found behind position [length p]: the occurrence at
    [length p] is the last one. *)
Lemma last_occurrence_by_find sub (b r : pystr) :
  find sub (drop (S (length b)) (b ++ sub ++ r)) = None →
  ∀ b' r', b ++ sub ++ r = b' ++ sub ++ r' → length b' ≤ length b.
Proof.
  intros Hf b' r' Heq.
  destruct (Nat.le_gt_cases (length b') (length b)) as [?|Hlt]; [done|].
  exfalso. rewrite Heq in Hf. rewrite drop_app_le in Hf by lia.
  by eapply find_None in Hf.
Qed.

End StringFacts.

(** ** Claims about the URL classifier *)

Section TopicSlug.

#[local] Abbreviation T := (py "/topic/").

Lemma topic_not_nil : T ≠ [].
Proof. done. Qed.

(** The last piece of a split at "/topic/" is not empty when the string is
    not empty and does not end in a slash. *)
Lemma last_piece_split_nonempty s :
  s ≠ [] → (∀ c, last s = Some c → c ≠ ch "/") →
  last_piece (split T s) ≠ [].
Proof.
  remember (length s) as n eqn:Hn. revert s Hn.
  induction n as [n IH] using lt_wf_ind. intros s -> Hne Hlast.
  rewrite split_unfold by apply topic_not_nil.
  destruct (find T s) as [i|] eqn:Hf; [|done].
  apply find_Some in Hf as (b & a & -> & <- & _).
  rewrite take_app_length, (assoc_L (++)), drop_app_length'
    by (by rewrite length_app).
  rewrite last_piece_cons by apply split_not_nil.
  assert (a ≠ []) as Ha.
  { intros ->. apply (Hlast (ch "/")); [|done].
    rewrite app_nil_r. rewrite last_app. reflexivity. }
  apply (IH (length a)); [|done|done|].
  - rewrite !length_app. simpl. unfold char in *. lia.
  - intros c Hc. apply Hlast. rewrite !last_app, Hc. done.
Qed.

(** Two occurrences of "/topic/" that overlap share exactly the slash. *)
Lemma topic_overlap k k' r a :
  k ≠ [] → T = k ++ k' → k' ≠ [] → T ++ r = k' ++ a → k = py "/topic".
Proof.
  intros Hk HT Hk' Heq. py_eval_in HT. py_eval_in Heq. py_eval.
  destruct k as [|c1 k]; [done|].
  destruct k as [|c2 k]; [simplify_eq/=|].
  destruct k as [|c3 k]; [simplify_eq/=|].
  destruct k as [|c4 k]; [simplify_eq/=|].
  destruct k as [|c5 k]; [simplify_eq/=|].
  destruct k as [|c6 k]; [simplify_eq/=|].
  destruct k as [|c7 k]; [by simplify_eq/=|].
  simplify_eq/=. by destruct k.
Qed.

(** Cutting at the occurrences found from the left ends at the last
    occurrence, unless that one overlaps an earlier one. *)
Lemma last_piece_after_last p r :
  r ≠ [] →
  (∀ p' r', p ++ T ++ r = p' ++ T ++ r' → length p' ≤ length p) →
  ¬ (∃ q, p = q ++ py "/topic") →
  last_piece (split T (p ++ T ++ r)) = r.
Proof.
  remember (length p) as n eqn:Hn. revert p Hn.
  induction n as [n IH] using lt_wf_ind. intros p -> Hr Hlast Hp.
  rewrite split_unfold by apply topic_not_nil.
  destruct (find T (p ++ T ++ r)) as [i|] eqn:Hf;
    [|by eapply find_None in Hf].
  apply find_Some in Hf as (b & a & Heq & <- & Hmin).
  rewrite Heq, take_app_length, (assoc_L (++)), drop_app_length'
    by (by rewrite length_app).
  rewrite last_piece_cons by apply split_not_nil.
  pose proof (Hmin p r eq_refl) as Hle.
  assert (last_piece (split T r) = r) as Hdone.
  { rewrite split_unfold by apply topic_not_nil.
    destruct (find T r) as [j|] eqn:Hfa; [|done].
    apply find_Some in Hfa as (b2 & a2 & -> & _).
    specialize (Hlast (p ++ T ++ b2) a2).
    rewrite <- !app_assoc in Hlast. specialize (Hlast eq_refl).
    rewrite !length_app in Hlast. simpl in Hlast. unfold char in *. lia. }
  apply app_eq_inv in Heq as [(k & -> & Hk) | (k & -> & Hk)].
  - (* the occurrence found is at or before the last one *)
    apply app_eq_inv in Hk as [(k' & HT & Ha) | (k' & -> & ->)].
    + destruct k as [|c k].
      { rewrite app_nil_l in HT. subst k'. apply app_inv_head in Ha as <-.
        exact Hdone. }
      destruct k' as [|c' k'].
      { rewrite app_nil_r in HT. rewrite app_nil_l in Ha. subst a.
        rewrite <- HT in *.
        change (T ++ r) with ([] ++ T ++ r).
        apply (IH 0) with (p := []);
          [rewrite length_app; simpl; unfold char in *; lia|done|done| |].
        - intros p' r' Heq'. specialize (Hlast (b ++ T ++ p') r').
          rewrite <- !app_assoc in Hlast. rewrite app_nil_l in Heq'.
          rewrite Heq' in Hlast.
          specialize (Hlast eq_refl). rewrite !length_app in Hlast.
          simpl in Hlast. simpl. unfold char in *. lia.
        - intros (q & Hq). by destruct q. }
      exfalso. apply Hp. exists b. f_equal.
      by apply (topic_overlap (c :: k) (c' :: k') r a).
    + apply (IH (length k')) with (p := k'); [|done|done| |].
      * rewrite !length_app. simpl. unfold char in *. lia.
      * intros p' r' Heq'. specialize (Hlast (b ++ T ++ p') r').
        rewrite <- !app_assoc in Hlast. rewrite <- Heq' in Hlast.
        specialize (Hlast eq_refl). rewrite !length_app in Hlast.
        simpl in Hlast. unfold char in *. lia.
      * intros (q & ->). apply Hp. exists (b ++ T ++ q).
        by rewrite <- !app_assoc.
  - (* the occurrence found is the last one *)
    rewrite length_app in Hle.
    destruct k as [|c k]; [|simpl in Hle; unfold char in *; lia].
    rewrite app_nil_l in Hk. apply app_inv_head in Hk as <-. exact Hdone.
Qed.

End TopicSlug.

(** C4, as amended.  For a URL that contains "/topic/", [source_to_category]
    returns category "topic" and a non-empty slug; the slug is what follows
    the last "/topic/", trailing slashes stripped, whenever that remainder
    is not empty and the last "/topic/" does not overlap an earlier one
    (the text before it does not end in "/topic"). *)
Theorem source_to_category_topic urlparse_path source_url :
  contains (py "/topic/") source_url = true →
  ∃ slug,
    source_to_category urlparse_path source_url = Ret (py "topic", Some slug)
    ∧ slug ≠ []
    ∧ ∀ p r,
        source_url = p ++ py "/topic/" ++ r →
        (∀ p' r', source_url = p' ++ py "/topic/" ++ r' → length p' ≤ length p) →
        rstrip_chars (ch "/") r ≠ [] →
        ¬ (∃ q, p = q ++ py "/topic") →
        slug = rstrip_chars (ch "/") r.
Proof.
  intros Hc. unfold source_to_category.
  pose proof Hc as Hc'. apply contains_iff in Hc' as (b & a & Hurl).
  assert (truthy source_url = true) as ->.
  { rewrite Hurl. destruct b; reflexivity. }
  simpl negb. cbv iota. rewrite Hc.
  eexists. split; [reflexivity|]. split.
  - apply last_piece_split_nonempty.
    + unfold rstrip_chars. intros Hnil. apply rstrip_by_nil in Hnil.
      rewrite Hurl in Hnil. apply Forall_app in Hnil as [_ Hnil].
      apply Forall_app in Hnil as [Hnil _]. py_eval_in Hnil.
      inversion Hnil as [|? ? _ Hnil']. inversion Hnil' as [|? ? Ht _].
      discriminate Ht.
    + intros c Hlast ->. apply rstrip_by_last in Hlast. discriminate Hlast.
  - intros p r -> Hlast Hr Hp.
    unfold rstrip_chars in *.
    rewrite rstrip_by_app.
    2:{ rewrite rstrip_by_app by done. by destruct (py "/topic/"). }
    rewrite rstrip_by_app by done.
    apply last_piece_after_last; [done| |done].
    intros p' r' Heq.
    destruct (rstrip_by_split (is_char (ch "/")) r) as (k & Hk & _).
    apply (Hlast p' (r' ++ k)).
    rewrite Hk at 1. rewrite !(assoc_L (++)). rewrite !(assoc_L (++)) in Heq.
    by rewrite Heq.
Qed.

Lemma source_to_category_topic_witness :
  ∃ slug,
    source_to_category urlparse_rejects (py "https://www.dhakapost.com/topic/cricket/")
    = Ret (py "topic", Some slug)
    ∧ slug ≠ []
    ∧ slug = rstrip_chars (ch "/") (py "cricket/").
Proof.
  destruct (source_to_category_topic urlparse_rejects
              (py "https://www.dhakapost.com/topic/cricket/"))
    as (slug & Hres & Hne & Hslug); [vm_compute; reflexivity|].
  exists slug. split; [exact Hres|]. split; [exact Hne|].
  apply (Hslug (py "https://www.dhakapost.com") (py "cricket/")).
  - vm_compute. reflexivity.
  - apply (last_occurrence_by_find (py "/topic/") (py "https://www.dhakapost.com")
             (py "cricket/")).
    vm_compute. reflexivity.
  - vm_compute. discriminate.
  - intros (q & Hq). apply (f_equal (fun l => last l)) in Hq.
    rewrite last_app in Hq. vm_compute in Hq. discriminate.
Defined.

(** C4 as stated fails: for a URL that ends in "/topic/" nothing follows
    the last "/topic/", and the slug returned is the URL without its final
    slash. *)
Lemma bare_topic_url_counterexample :
  contains (py "/topic/") (py "https://www.dhakapost.com/topic/") = true
  ∧ source_to_category urlparse_rejects (py "https://www.dhakapost.com/topic/")
    = Ret (py "topic", Some (py "https://www.dhakapost.com/topic"))
  ∧ ¬ topic_slug_claim (py "https://www.dhakapost.com/topic/")
        (source_to_category urlparse_rejects (py "https://www.dhakapost.com/topic/")).
Proof.
  split; [vm_compute; reflexivity|]. split; [vm_compute; reflexivity|].
  intros (slug & Hres & Hne & Hslug).
  apply Hne. rewrite (Hslug []); [reflexivity|].
  exists (py "https://www.dhakapost.com"). split; [vm_compute; reflexivity|].
  intros p' r' Heq. apply (f_equal length) in Heq.
  rewrite !length_app in Heq.
  change (length (py "https://www.dhakapost.com/topic/")) with 32 in Heq.
  change (length (py "/topic/")) with 7 in Heq.
  change (length (py "https://www.dhakapost.com")) with 25.
  unfold char in *. lia.
Qed.

Section Sections.

Lemma find_char_None c s : find [c] s = None → c ∉ s.
Proof.
  intros Hf Hin. apply list_elem_of_split in Hin as (b & a & ->).
  by eapply (find_None [c] _ b a) in Hf.
Qed.

Lemma find_char_Some c s i :
  find [c] s = Some i →
  ∃ rest, s = take i s ++ [c] ++ rest ∧ (c ∉ take i s)
          ∧ drop (i + 1) s = rest.
Proof.
  intros Hf. apply find_Some in Hf as (b & a & -> & <- & Hmin).
  exists a. rewrite take_app_length. split; [done|]. split.
  - intros Hin. apply list_elem_of_split in Hin as (b1 & b2 & ->).
    specialize (Hmin b1 (b2 ++ [c] ++ a)). rewrite <- !app_assoc in Hmin.
    specialize (Hmin eq_refl). rewrite !length_app in Hmin. simpl in Hmin. lia.
  - rewrite (assoc_L (++)). apply drop_app_length'. rewrite length_app. simpl. lia.
Qed.

(** What [strip] leaves does not start with a stripped character. *)
Lemma strip_by_head p s c t : strip_by p s = c :: t → p c = false.
Proof.
  unfold strip_by, lstrip_by. intros Hs.
  destruct (rstrip_by_split p (dropWhile p s)) as (k & Hk & _).
  rewrite Hs in Hk. simpl in Hk. by eapply dropWhile_head.
Qed.

Lemma strip_by_last p s c : last (strip_by p s) = Some c → p c = false.
Proof. apply rstrip_by_last. Qed.

(** The parts of a split at one character: one part when the character
    does not occur, otherwise the text before its first occurrence and at
    least one more part. *)
Lemma split_char c s :
  (c ∉ s → split [c] s = [s])
  ∧ (c ∈ s → ∃ seg rest more,
        s = seg ++ [c] ++ rest ∧ (c ∉ seg) ∧ split [c] s = seg :: more
        ∧ more ≠ []).
Proof.
  rewrite split_unfold by done. split.
  - intros Hc. destruct (find [c] s) as [i|] eqn:Hf; [|done].
    apply find_char_Some in Hf as (rest & Hs & _). exfalso. apply Hc.
    rewrite Hs. set_solver.
  - intros Hc. destruct (find [c] s) as [i|] eqn:Hf.
    + apply find_char_Some in Hf as (rest & Hs & Hseg & Hrest).
      exists (take i s), rest, (split [c] rest). split; [done|]. split; [done|].
      simpl length. rewrite Hrest. split; [done | apply split_not_nil].
    + by apply find_char_None in Hf.
Qed.

End Sections.

(** C8. [url_to_section] returns the first part of the slash-stripped path
    when the split at "/" has at least two parts, which is when the stripped
    path contains a slash; the part is then the non-empty, slash-free text
    before the first slash.  It returns [None] otherwise, and also when
    [urlparse] raises: the exception is caught. *)
Theorem url_to_section_first_segment urlparse_path article_url :
  match urlparse_path article_url with
  | Raise _ => url_to_section urlparse_path article_url = None
  | Ret p =>
      let path := strip_chars (ch "/") p in
      let parts := split (py "/") path in
      url_to_section urlparse_path article_url
        = (if 2 <=? length parts then head parts else None)
      ∧ (ch "/" ∉ path → url_to_section urlparse_path article_url = None)
      ∧ (ch "/" ∈ path →
           ∃ seg rest, path = seg ++ py "/" ++ rest ∧ seg ≠ [] ∧ (ch "/" ∉ seg)
                       ∧ url_to_section urlparse_path article_url = Some seg)
  end.
Proof.
  unfold url_to_section, url_to_section_try.
  destruct (urlparse_path article_url) as [p|e]; [|done].
  cbn [mbind result_bind]. cbv zeta.
  set (path := strip_chars (ch "/") p).
  destruct (split_char (ch "/") path) as [Hno Hyes].
  change (py "/") with (@cons N (ch "/") (@nil N)) in *.
  split; [|split].
  - destruct (split (@cons N (ch "/") (@nil N)) path) as [|x [|y l]]; done.
  - intros Hc. rewrite (Hno Hc). done.
  - intros Hc. destruct (Hyes Hc) as (seg & rest & more & Hp & Hseg & Hsplit & Hmore).
    exists seg, rest. split; [done|]. split; [|split; [done|]].
    + intros ->. rewrite app_nil_l in Hp.
      unfold path, strip_chars in Hp. apply strip_by_head in Hp.
      unfold is_char in Hp. by rewrite N.eqb_refl in Hp.
    + rewrite Hsplit. destruct more; done.
Qed.

Lemma url_to_section_first_segment_witness :
  url_to_section urlparse_site (py "https://www.dhakapost.com/jobs-career/425620")
  = Some (py "jobs-career").
Proof.
  pose proof (url_to_section_first_segment urlparse_site
                (py "https://www.dhakapost.com/jobs-career/425620")) as H.
  change (urlparse_site (py "https://www.dhakapost.com/jobs-career/425620"))
    with (Ret (A := pystr) (py "/jobs-career/425620")) in H.
  cbv beta iota zeta in H. destruct H as (H & _). rewrite H.
  vm_compute. reflexivity.
Defined.

(** ** Claims about the article extractor *)

Section Text.

Implicit Types (s t cur rest : pystr) (toks : list pystr) (p : char → bool).

Lemma strip_by_fixed p s :
  (∀ c, head s = Some c → p c = false) →
  (∀ c, last s = Some c → p c = false) →
  strip_by p s = s.
Proof.
  intros Hh Hl. unfold strip_by, lstrip_by, rstrip_by.
  assert (dropWhile p s = s) as ->.
  { destruct s as [|c s]; [done|]. simpl. by rewrite (Hh c). }
  destruct (rev s) as [|c t] eqn:Hrev.
  - apply (f_equal (@rev N)) in Hrev. rewrite rev_involutive in Hrev. by subst.
  - assert (last s = Some c) as Hc.
    { rewrite <- (rev_involutive s), Hrev. simpl. apply last_snoc. }
    simpl. rewrite (Hl c Hc). rewrite <- Hrev. apply rev_involutive.
Qed.

Lemma isspace_nbsp c : isspace c = false → c ≠ nbsp.
Proof. intros H ->. discriminate H. Qed.

Lemma replace_char_head old new s :
  head (replace_char old new s)
  = (fun c => if (c =? old)%N then new else c) <$> head s.
Proof. by destruct s. Qed.

Lemma replace_char_last old new s :
  last (replace_char old new s)
  = (fun c => if (c =? old)%N then new else c) <$> last s.
Proof.
  induction s as [|c [|d s] IH]; [done | done |].
  change (replace_char old new (c :: d :: s))
    with ((if (c =? old)%N then new else c) :: replace_char old new (d :: s)).
  change (replace_char old new (d :: s))
    with ((if (d =? old)%N then new else d) :: replace_char old new s) in *.
  rewrite !last_cons_cons. exact IH.
Qed.

Lemma replace_nbsp_keeps c :
  isspace c = false → (if (c =? nbsp)%N then space else c) = c.
Proof.
  intros H. destruct (N.eqb_spec c nbsp) as [->|]; [discriminate H | done].
Qed.

(** A trimmed text stays trimmed when its non-breaking spaces are replaced. *)
Lemma strip_replace_fixed t :
  strip (replace_char nbsp space (strip t)) = replace_char nbsp space (strip t).
Proof.
  unfold strip at 1. apply strip_by_fixed.
  - intros c. rewrite replace_char_head.
    destruct (head (strip t)) as [d|] eqn:Hd; [|done]. simpl. intros [= <-].
    apply head_Some in Hd as (l' & Hd). apply strip_by_head in Hd.
    by rewrite replace_nbsp_keeps.
  - intros c. rewrite replace_char_last.
    destruct (last (strip t)) as [d|] eqn:Hd; [|done]. simpl. intros [= <-].
    apply strip_by_last in Hd. by rewrite replace_nbsp_keeps.
Qed.

Lemma replace_char_gone old new s : old ≠ new → old ∉ replace_char old new s.
Proof.
  intros Hne. induction s as [|c s IH]; simpl; [set_solver|].
  intros Hin. apply elem_of_cons in Hin as [Hin | Hin]; [|done].
  destruct (N.eqb_spec c old); congruence.
Qed.

Lemma replace_char_nil old new s : replace_char old new s = [] ↔ s = [].
Proof. by destruct s. Qed.

Lemma truthy_true s : truthy s = true ↔ s ≠ [].
Proof. by destruct s. Qed.

(** [split_ws]: reading a run of non-whitespace extends the token. *)
Lemma split_ws_from_token t cur rest :
  Forall (fun c => isspace c = false) t →
  split_ws_from cur (t ++ rest) = split_ws_from (rev t ++ cur) rest.
Proof.
  intros Ht. revert cur. induction Ht as [|c t Hc _ IH]; intros cur; [done|].
  simpl. rewrite Hc, IH. by rewrite <- app_assoc.
Qed.

(** The tokens of [split_ws] are non-empty and free of whitespace. *)
Lemma split_ws_from_tokens cur s :
  Forall (fun c => isspace c = false) cur →
  Forall (fun t => t ≠ [] ∧ Forall (fun c => isspace c = false) t)
         (split_ws_from cur s).
Proof.
  revert cur. induction s as [|c s IH]; intros cur Hcur; simpl.
  - destruct cur as [|d cur]; constructor; [|constructor].
    split; [|by apply Forall_rev].
    intros H. apply (f_equal (@length N)) in H. rewrite length_rev in H. done.
  - destruct (isspace c) eqn:Hc.
    + destruct cur as [|d cur]; [by apply IH|]. constructor; [|by apply IH].
      split; [|by apply Forall_rev].
      intros H. apply (f_equal (@length N)) in H. rewrite length_rev in H. done.
    + apply IH. by constructor.
Qed.

(** Joining tokens with single spaces and splitting again gives them back. *)
Lemma split_ws_join toks :
  Forall (fun t => t ≠ [] ∧ Forall (fun c => isspace c = false) t) toks →
  split_ws (join [space] toks) = toks.
Proof.
  unfold split_ws. induction 1 as [|t toks [Hne Ht] Htoks IH]; [done|].
  destruct toks as [|t' toks].
  - simpl. rewrite <- (app_nil_r t) at 1. rewrite split_ws_from_token by done.
    rewrite app_nil_r. simpl. destruct (rev t) as [|d l] eqn:Hrev.
    + apply (f_equal (@rev N)) in Hrev. rewrite rev_involutive in Hrev. done.
    + rewrite <- Hrev. by rewrite rev_involutive.
  - change (join [space] (t :: t' :: toks))
      with (t ++ [space] ++ join [space] (t' :: toks)).
    rewrite split_ws_from_token by done. rewrite app_nil_r.
    change ([space] ++ join [space] (t' :: toks))
      with (space :: join [space] (t' :: toks)).
    cbn [split_ws_from]. change (isspace space) with true. cbv iota.
    destruct (rev t) as [|d l] eqn:Hrev.
    + apply (f_equal (@rev N)) in Hrev. rewrite rev_involutive in Hrev. done.
    + rewrite <- Hrev, rev_involutive. by rewrite IH.
Qed.

Lemma split_ws_idempotent s : split_ws (join [space] (split_ws s)) = split_ws s.
Proof. apply split_ws_join. apply split_ws_from_tokens. constructor. Qed.

End Text.

Section Trimming.

Implicit Types (s t core : pystr) (p : char → bool).

Lemma first_truthy_stripped (a b : option pystr) :
  (strip_or_none (py_or a b) = None ↔
   (∀ s, a = Some s → s = []) ∧ (∀ s, b = Some s → s = []))
  ∧ (∀ s, a = Some s → s ≠ [] → strip_or_none (py_or a b) = Some (strip s))
  ∧ (∀ s, (∀ s0, a = Some s0 → s0 = []) → b = Some s → s ≠ [] →
          strip_or_none (py_or a b) = Some (strip s)).
Proof.
  destruct a as [[|a1 l1]|]; destruct b as [[|b1 l2]|]; simpl;
    (split; [split|split]); try naive_solver.
Qed.


Lemma dropWhile_app_all p (l x : pystr) :
  Forall (fun c => p c = true) l → dropWhile p (l ++ x) = dropWhile p x.
Proof.
  induction 1 as [|c l Hc _ IH]; [done|]. simpl. by rewrite Hc.
Qed.

(** [strip] returns the text without its leading and trailing whitespace. *)
Lemma strip_trimmed t : trimmed t (strip t).
Proof.
  unfold trimmed, strip, strip_by, lstrip_by.
  destruct (dropWhile_split isspace t) as (lead & Hlead & Hall).
  destruct (rstrip_by_split isspace (dropWhile isspace t)) as (trail & Htrail & Hall').
  exists lead, trail. split; [by rewrite <- Htrail|]. split; [done|].
  split; [done|]. split.
  - intros c Hc. apply head_Some in Hc as (l' & Hc).
    by apply (strip_by_head isspace t c l').
  - apply rstrip_by_last.
Qed.

(** Nothing else is the text without its leading and trailing whitespace. *)
Lemma trimmed_strip t core : trimmed t core → core = strip t.
Proof.
  intros (lead & trail & -> & Hlead & Htrail & Hhead & Hlast).
  unfold strip, strip_by, lstrip_by, rstrip_by.
  rewrite dropWhile_app_all by done.
  destruct core as [|c core].
  - rewrite app_nil_l. apply dropWhile_all in Htrail. by rewrite Htrail.
  - rewrite <- app_comm_cons. cbn [dropWhile]. rewrite (Hhead c eq_refl).
    rewrite app_comm_cons, rev_app_distr.
    rewrite dropWhile_app_all by (by apply Forall_rev).
    destruct (rev (c :: core)) as [|d l] eqn:Hrev.
    { apply (f_equal (@rev N)) in Hrev. rewrite rev_involutive in Hrev. done. }
    assert (last (c :: core) = Some d) as Hd.
    { rewrite <- (rev_involutive (c :: core)), Hrev. apply last_snoc. }
    cbn [dropWhile]. rewrite (Hlast d Hd). rewrite <- Hrev.
    by rewrite rev_involutive.
Qed.

Lemma replace_char_fmap old new s :
  replace_char old new s = (fun c => if (c =? old)%N then new else c) <$> s.
Proof.
  unfold replace_char. induction s as [|c s IH]; [done|].
  cbn [map]. rewrite fmap_cons. by rewrite IH.
Qed.

(** The cleaning steps of [parse_article], on the trimmed texts. *)
Lemma clean_paras_trimmed (paras : list pystr) :
  clean_paras paras
  = (fun core : pystr => (fun c => if (c =? 160)%N then 32%N else c) <$> core)
      <$> filter (fun core => core ≠ []) (strip <$> paras).
Proof.
  unfold clean_paras. induction paras as [|t paras IH]; [done|].
  rewrite fmap_cons, !filter_cons.
  destruct (decide (truthy (strip t) = true)) as [Ht|Ht].
  - rewrite decide_True by (by apply truthy_true).
    cbn [map]. rewrite fmap_cons, IH. f_equal; apply replace_char_fmap.
  - rewrite decide_False by (intros H; by apply Ht, truthy_true).
    exact IH.
Qed.

(** The texts kept for the body: no boilerplate phrase, not empty, without
    non-breaking space, trimmed. *)
Lemma kept_nodes_normalised (paras : list pystr) :
  Forall (fun n => (n ∉ bad) ∧ n ≠ [] ∧ (nbsp ∉ n) ∧ strip n = n)
         (drop_bad (clean_paras paras)).
Proof.
  apply Forall_forall. intros n Hn. unfold drop_bad in Hn.
  apply list_elem_of_filter in Hn as [Hbad Hn]. split; [done|].
  unfold clean_paras in Hn. apply list_elem_of_In, in_map_iff in Hn
    as (t & <- & Ht).
  apply list_elem_of_In, list_elem_of_filter in Ht as [Ht _].
  apply truthy_true in Ht.
  split; [by rewrite replace_char_nil|].
  split; [by apply replace_char_gone | apply strip_replace_fixed].
Qed.

(** [split_ws] finds the maximal runs of characters that are not
    whitespace: as many as there are token starts, made of exactly the
    characters that are not whitespace. *)
Lemma split_ws_from_count cur s :
  length (split_ws_from cur s)
  = (match cur with [] => 0 | _ :: _ => 1 end)
    + count_tokens_from (match cur with [] => true | _ :: _ => false end) s.
Proof.
  revert cur. induction s as [|c s IH]; intros cur.
  - by destruct cur.
  - cbn [split_ws_from count_tokens_from]. destruct (isspace c).
    + destruct cur as [|d cur]; [by rewrite IH|]. cbn [length]. by rewrite IH.
    + rewrite IH. by destruct cur.
Qed.

Lemma split_ws_from_concat cur s :
  concat (split_ws_from cur s)
  = rev cur ++ filter (fun c => isspace c = false) s.
Proof.
  unfold pystr, char in *.
  revert cur. induction s as [|c s IH]; intros cur.
  - destruct cur; [done|]. cbn [split_ws_from concat]. by rewrite !app_nil_r.
  - cbn [split_ws_from]. rewrite filter_cons. destruct (isspace c) eqn:Hc.
    + rewrite decide_False by done.
      destruct cur as [|d cur]; [apply IH|]. cbn [concat]. by rewrite IH.
    + rewrite decide_True by done. rewrite IH. cbn [rev].
      by rewrite <- app_assoc.
Qed.

Lemma split_ws_count s : length (split_ws s) = count_tokens s.
Proof. apply split_ws_from_count. Qed.

End Trimming.

Section Extraction.

Variable urlparse_path : pystr → result pystr.

(** C5. The body of the record is the single-space join of these texts:
    each paragraph text without its leading and trailing whitespace, the
    empty ones left out, with every non-breaking space replaced by a space,
    and then without the texts equal to a boilerplate phrase.  No text
    joined is a boilerplate phrase, is empty or holds a non-breaking space,
    and the texts joined stand in the order of the paragraph texts they
    come from. *)
Theorem body_joins_filtered_paragraphs u c t sel :
  ∃ rec (cores : list pystr),
    (parse_article urlparse_path (TextResponse u c t sel)).2 = [rec]
    ∧ Forall2 trimmed (xpath_paras sel) cores
    ∧ let cleaned : list pystr :=
        (fun core : pystr =>
           (fun c => if (c =? 160)%N then 32%N else c) <$> core)
          <$> filter (fun core => core ≠ []) cores in
      let kept : list pystr := filter (fun n => n ∉ bad) cleaned in
      body rec = join [32%N] kept
      ∧ Forall (fun n => (n ∉ bad) ∧ n ≠ [] ∧ (160%N ∉ n)) kept
      ∧ kept `sublist_of`
          ((fun core : pystr =>
              (fun c => if (c =? 160)%N then 32%N else c) <$> core) <$> cores).
Proof.
  eexists _, (strip <$> xpath_paras sel).
  split; [reflexivity|]. split.
  { apply Forall2_fmap_r, Forall_Forall2_diag, Forall_forall.
    intros x _. apply strip_trimmed. }
  cbv zeta. split; [|split].
  - rewrite <- clean_paras_trimmed. reflexivity.
  - rewrite <- clean_paras_trimmed.
    eapply Forall_impl; [apply kept_nodes_normalised|].
    intros n (? & ? & ? & _). done.
  - etrans; [apply sublist_filter|]. apply fmap_sublist, sublist_filter.
Qed.

(** C6. The [tokens] field is the number of whitespace-delimited tokens of
    the body: the maximal runs of characters that are not whitespace, which
    [split] returns (non-empty, free of whitespace, together all the
    characters of the body that are not whitespace).  Splitting the body,
    joining the tokens with single spaces and splitting again gives the
    same tokens, hence the same count. *)
Theorem tokens_count_is_stable u c t sel :
  ∃ rec,
    (parse_article urlparse_path (TextResponse u c t sel)).2 = [rec]
    ∧ tokens rec = count_tokens (body rec)
    ∧ tokens rec = length (split_ws (body rec))
    ∧ Forall (fun tok => tok ≠ [] ∧ Forall (fun c => isspace c = false) tok)
             (split_ws (body rec))
    ∧ concat (split_ws (body rec))
      = filter (fun c => isspace c = false) (body rec)
    ∧ split_ws (join [space] (split_ws (body rec))) = split_ws (body rec)
    ∧ count_tokens (join [space] (split_ws (body rec))) = tokens rec.
Proof.
  eexists. split; [reflexivity|]. cbn [tokens body].
  split; [apply split_ws_count|]. split; [reflexivity|].
  split; [apply split_ws_from_tokens; constructor|].
  split; [apply (split_ws_from_concat [])|].
  split; [apply split_ws_idempotent|].
  by rewrite <- split_ws_count, split_ws_idempotent.
Qed.

(** C7, as amended.  The title is the first text that the h1 query returns,
    or that the fallback query returns when the first has none or an empty
    one, without its leading and trailing whitespace; it is absent exactly
    when neither query returns a non-empty first text.  Where the first
    text of the h1 query is not whitespace only, this is the first text
    that is non-empty once trimmed, as the specification has it. *)
Theorem title_is_first_h1_text u c t sel :
  ∃ rec,
    (parse_article urlparse_path (TextResponse u c t sel)).2 = [rec]
    ∧ (title rec = None ↔
       (∀ a, head (css_h1_text sel) = Some a → a = [])
       ∧ (∀ a, head (xpath_h1_text sel) = Some a → a = []))
    ∧ (∀ a, head (css_h1_text sel) = Some a → a ≠ [] →
            ∃ core, title rec = Some core ∧ trimmed a core)
    ∧ (∀ a, (∀ a0, head (css_h1_text sel) = Some a0 → a0 = []) →
            head (xpath_h1_text sel) = Some a → a ≠ [] →
            ∃ core, title rec = Some core ∧ trimmed a core)
    ∧ (∀ a, head (css_h1_text sel) = Some a → strip a ≠ [] →
            title rec = spec_title (css_h1_text sel)).
Proof.
  eexists. split; [reflexivity|]. cbn [title]. unfold get.
  destruct (first_truthy_stripped (head (css_h1_text sel))
              (head (xpath_h1_text sel))) as (H1 & H2 & H3).
  split; [exact H1|]. split; [|split].
  - intros a Ha Hne. exists (strip a). split; [by apply H2 | apply strip_trimmed].
  - intros a H0 Ha Hne. exists (strip a).
    split; [by apply H3 | apply strip_trimmed].
  - intros a Ha Hne. rewrite (H2 a Ha) by (by intros ->).
    unfold spec_title. destruct (css_h1_text sel) as [|x l]; [done|].
    injection Ha as ->. rewrite fmap_cons, filter_cons_True by done. done.
Qed.

(** C9. A response that is not a [TextResponse] is skipped: one warning is
    logged, nothing is yielded, and the callback returns; a text response
    yields exactly one record, for the URL of the response.  So a record is
    yielded exactly when the response is textual. *)
Theorem parse_article_skips_non_text response :
  (∀ u, response = OtherResponse u →
        parse_article urlparse_path response
        = ([LogWarning (py "Skipping non-text response: " ++ u)], []))
  ∧ (∀ u c t sel, response = TextResponse u c t sel →
        ∃ rec, parse_article urlparse_path response = ([], [rec])
               ∧ url rec = u ∧ language rec = py "bn")
  ∧ ((parse_article urlparse_path response).2 ≠ [] ↔
     ∃ u c t sel, response = TextResponse u c t sel).
Proof.
  split; [by intros u ->|]. split.
  - intros u c t sel ->. eexists. split; [reflexivity|]. done.
  - destruct response as [u c t sel|u]; simpl; split; try done.
    + intros _. by exists u, c, t, sel.
    + intros (? & ? & ? & ? & ?). discriminate.
Qed.

End Extraction.

Lemma body_joins_filtered_paragraphs_witness :
  ∃ rec (cores : list pystr),
    (parse_article urlparse_site spaced_response).2 = [rec]
    ∧ Forall2 trimmed (xpath_paras spaced_selectors) cores
    ∧ body rec = py "goal goal a b".
Proof.
  destruct (body_joins_filtered_paragraphs urlparse_site sample_article
              (Some (py "sports")) None spaced_selectors)
    as (rec & cores & Hrec & Hcores & _).
  exists rec, cores. split; [exact Hrec|]. split; [exact Hcores|].
  simpl in Hrec. injection Hrec as <-. vm_compute. reflexivity.
Defined.

Lemma tokens_count_is_stable_witness :
  ∃ rec,
    (parse_article urlparse_site spaced_response).2 = [rec]
    ∧ tokens rec = count_tokens (body rec)
    ∧ tokens rec = 4.
Proof.
  destruct (tokens_count_is_stable urlparse_site sample_article
              (Some (py "sports")) None spaced_selectors)
    as (rec & Hrec & Hcount & _).
  exists rec. split; [exact Hrec|]. split; [exact Hcount|].
  simpl in Hrec. injection Hrec as <-. vm_compute. reflexivity.
Defined.

Lemma title_is_first_h1_text_witness :
  ∃ rec,
    (parse_article urlparse_site sample_text_response).2 = [rec]
    ∧ title rec = spec_title (css_h1_text sample_selectors)
    ∧ title rec = Some (py "Dhaka wins").
Proof.
  destruct (title_is_first_h1_text urlparse_site sample_article
              (Some (py "sports")) None sample_selectors)
    as (rec & Hrec & _ & _ & _ & Hspec).
  exists rec. split; [exact Hrec|].
  assert (title rec = spec_title (css_h1_text sample_selectors)) as Ht.
  { apply (Hspec (py "  Dhaka wins  ")); [reflexivity|]. vm_compute. discriminate. }
  split; [exact Ht|]. rewrite Ht. vm_compute. reflexivity.
Defined.

(** C7 as stated fails: when the first text of the heading is whitespace
    only, the title is the empty string, neither absent nor the first text
    that is non-empty once trimmed. *)
Lemma whitespace_h1_counterexample :
  ∃ rec,
    (parse_article urlparse_site spaced_response).2 = [rec]
    ∧ title rec = Some []
    ∧ spec_title (css_h1_text spaced_selectors) = Some (py "Real title")
    ∧ title rec ≠ spec_title (css_h1_text spaced_selectors).
Proof.
  eexists. split; [reflexivity|]. split; [vm_compute; reflexivity|].
  split; [vm_compute; reflexivity|]. vm_compute. discriminate.
Qed.

Lemma parse_article_skips_non_text_witness :
  parse_article urlparse_site (OtherResponse sample_article)
  = ([LogWarning (py "Skipping non-text response: " ++ sample_article)], []).
Proof.
  apply (proj1 (parse_article_skips_non_text urlparse_site
                  (OtherResponse sample_article)) sample_article).
  reflexivity.
Defined.

(** * Further properties of the code *)

(** ** [source_to_category] *)

Section Classifier.

Variable urlparse_path : pystr → result pystr.

Implicit Types (source_url cat : pystr).

(** The first part of a split at "/" of a string that is not empty and does
    not start with a slash. *)
Lemma first_segment (path : pystr) :
  path ≠ [] → (∀ c t, path = c :: t → c ≠ ch "/") →
  ∃ rest, path = hd [] (split (py "/") path) ++ rest
          ∧ hd [] (split (py "/") path) ≠ []
          ∧ (ch "/" ∉ hd [] (split (py "/") path))
          ∧ (rest = [] ∨ ∃ r, rest = py "/" ++ r).
Proof.
  intros Hne Hhead. change (py "/") with (@cons N (ch "/") (@nil N)).
  destruct (split_char (ch "/") path) as [Hno Hyes].
  destruct (decide (ch "/" ∈ path)) as [Hin|Hnin].
  - destruct (Hyes Hin) as (seg & rest & more & Hp & Hseg & Hsplit & _).
    rewrite Hsplit. simpl hd. exists ([ch "/"] ++ rest).
    split; [done|]. split; [|split; [done | right; by exists rest]].
    intros ->. rewrite app_nil_l in Hp. by eapply Hhead.
  - rewrite (Hno Hnin). simpl hd. exists []. rewrite app_nil_r.
    split; [done|]. split; [done|]. split; [done | by left].
Qed.

(** X1. A non-empty source URL without "/topic/" is classified by its path:
    when [urlparse] raises, so does [source_to_category]; an empty stripped
    path gives ("home", None); otherwise the category is the text of the
    stripped path before its first slash (non-empty, slash-free) and the
    topic slug is absent. *)
Theorem source_to_category_plain source_url :
  source_url ≠ [] →
  contains (py "/topic/") source_url = false →
  match urlparse_path source_url with
  | Raise e => source_to_category urlparse_path source_url = Raise e
  | Ret p =>
      let path := strip_chars (ch "/") p in
      (path = [] →
       source_to_category urlparse_path source_url = Ret (py "home", None))
      ∧ (path ≠ [] →
         ∃ seg rest,
           source_to_category urlparse_path source_url = Ret (seg, None)
           ∧ path = seg ++ rest ∧ seg ≠ [] ∧ (ch "/" ∉ seg)
           ∧ (rest = [] ∨ ∃ r, rest = py "/" ++ r))
  end.
Proof.
  intros Hne Hc. unfold source_to_category.
  apply truthy_true in Hne. rewrite Hne, Hc. cbn [negb]. cbv iota.
  destruct (urlparse_path source_url) as [p|e]; [|done].
  cbn [mbind result_bind]. cbv zeta.
  remember (strip_chars (ch "/") p) as path eqn:Hpatheq. split.
  - intros ->. done.
  - intros Hpath. pose proof Hpath as Ht. apply truthy_true in Ht. rewrite Ht.
    cbn [negb]. cbv iota.
    destruct (first_segment path Hpath) as (rest & Hp & Hseg & Hslash & Hrest).
    { intros c t Hp ->. rewrite Hpatheq in Hp. unfold strip_chars in Hp.
      apply strip_by_head in Hp. unfold is_char in Hp. by rewrite N.eqb_refl in Hp. }
    by exists (hd [] (split (py "/") path)), rest.
Qed.

(** X2. Whatever [source_to_category] returns, the category is not empty;
    a topic slug is present exactly for the URLs that contain "/topic/",
    and then the category is "topic" and the slug is not empty. *)
Theorem source_to_category_result source_url cat slug :
  source_to_category urlparse_path source_url = Ret (cat, slug) →
  cat ≠ []
  ∧ (is_Some slug ↔ contains (py "/topic/") source_url = true)
  ∧ (∀ s, slug = Some s → cat = py "topic" ∧ s ≠ []).
Proof.
  intros Hres. destruct source_url as [|c0 u0] eqn:Hu.
  { injection Hres as <- <-. split; [done|]. split; [|done].
    split; [by intros [? ?] | done]. }
  rewrite <- Hu in *. assert (source_url ≠ []) as Hne by (by rewrite Hu).
  clear Hu c0 u0.
  destruct (contains (py "/topic/") source_url) eqn:Hc.
  - destruct (source_to_category_topic urlparse_path source_url Hc)
      as (s & Hs & Hsne & _).
    rewrite Hs in Hres. injection Hres as <- <-.
    split; [done|]. split; [split; [done | by eexists]|].
    by intros ? [= <-].
  - pose proof (source_to_category_plain source_url Hne Hc) as H.
    destruct (urlparse_path source_url) as [p|e]; [|congruence].
    cbv zeta in H. destruct H as [Hhome Hseg].
    destruct (decide (strip_chars (ch "/") p = [])) as [Hp|Hp].
    + rewrite (Hhome Hp) in Hres. injection Hres as <- <-.
      split; [done|]. split; [|done]. split; [by intros [? ?] | done].
    + destruct (Hseg Hp) as (seg & rest & Hs & _ & Hsne & _).
      rewrite Hs in Hres. injection Hres as <- <-.
      split; [done|]. split; [|done]. split; [by intros [? ?] | done].
Qed.

(** X3. [source_to_category] does not catch the exception of [urlparse]: it
    raises exactly when the URL is not empty, does not contain "/topic/",
    and [urlparse] raises on it. *)
Theorem source_to_category_raises source_url e :
  source_to_category urlparse_path source_url = Raise e ↔
  source_url ≠ [] ∧ contains (py "/topic/") source_url = false
  ∧ urlparse_path source_url = Raise e.
Proof.
  destruct source_url as [|c0 u0] eqn:Hu.
  { split; [discriminate | by intros [? _]]. }
  rewrite <- Hu. assert (source_url ≠ []) as Hne by (by rewrite Hu).
  clear Hu c0 u0.
  destruct (contains (py "/topic/") source_url) eqn:Hc.
  - destruct (source_to_category_topic urlparse_path source_url Hc)
      as (s & Hs & _). rewrite Hs. split; [discriminate | by intros (_ & ? & _)].
  - pose proof (source_to_category_plain source_url Hne Hc) as H.
    destruct (urlparse_path source_url) as [p|e'].
    + cbv zeta in H. destruct H as [Hhome Hseg].
      destruct (decide (strip_chars (ch "/") p = [])) as [Hp|Hp].
      * rewrite (Hhome Hp). split; [discriminate | by intros (_ & _ & ?)].
      * destruct (Hseg Hp) as (seg & rest & Hs & _). rewrite Hs.
        split; [discriminate | by intros (_ & _ & ?)].
    + rewrite H. split; [by intros [= ->] | by intros (_ & _ & [= ->])].
Qed.

End Classifier.

Lemma source_to_category_plain_witness :
  ∃ seg rest,
    source_to_category urlparse_site (py "https://www.dhakapost.com/sports/extra")
    = Ret (seg, None)
    ∧ py "sports/extra" = seg ++ rest ∧ seg ≠ [] ∧ (ch "/" ∉ seg)
    ∧ (rest = [] ∨ ∃ r, rest = py "/" ++ r).
Proof.
  pose proof (source_to_category_plain urlparse_site
                (py "https://www.dhakapost.com/sports/extra")) as H.
  change (urlparse_site (py "https://www.dhakapost.com/sports/extra"))
    with (Ret (A := pystr) (py "/sports/extra")) in H.
  cbv beta iota zeta in H.
  change (strip_chars (ch "/") (py "/sports/extra")) with (py "sports/extra") in H.
  apply H; [discriminate | vm_compute; reflexivity | discriminate].
Defined.

Lemma source_to_category_result_witness :
  py "topic" ≠ []
  ∧ (is_Some (Some (py "cricket")) ↔
     contains (py "/topic/") (py "https://www.dhakapost.com/topic/cricket") = true)
  ∧ (∀ s, Some (py "cricket") = Some s → py "topic" = py "topic" ∧ s ≠ []).
Proof.
  apply (source_to_category_result urlparse_rejects
           (py "https://www.dhakapost.com/topic/cricket")).
  vm_compute. reflexivity.
Defined.

Lemma source_to_category_raises_witness :
  source_to_category urlparse_rejects (py "https://www.dhakapost.com/sports")
  = Raise ValueError.
Proof.
  apply (source_to_category_raises urlparse_rejects).
  split; [discriminate|]. split; vm_compute; reflexivity.
Defined.

(** ** [parse_home]: the listing sources *)

Section Sources.

Implicit Types (l acc : list pystr) (x : pystr).

#[local] Abbreviation add_key :=
  (fun acc x => if decide (x ∈ acc) then acc else acc ++ [x]).

(** Keys met after [acc] was built go behind it, without those in [acc]. *)
Lemma foldl_add_key acc l :
  foldl add_key acc l = acc ++ fromkeys (filter (fun x => x ∉ acc) l).
Proof.
  unfold fromkeys. remember (length l) as n eqn:Hn. revert acc l Hn.
  induction n as [n IH] using lt_wf_ind. intros acc l ->.
  destruct l as [|x l]; [by rewrite app_nil_r|].
  cbn [foldl]. rewrite filter_cons. destruct (decide (x ∈ acc)) as [Hin|Hnin].
  - rewrite decide_False by (intros H; by apply H).
    apply (IH (length l)); [simpl; lia | done].
  - rewrite decide_True by done. cbn [foldl].
    rewrite decide_False by (by inversion 1). rewrite app_nil_l.
    rewrite (IH (length l) ltac:(simpl; lia) (acc ++ [x]) l eq_refl).
    pose proof (length_filter (fun x => x ∉ acc) l) as Hlen.
    rewrite (IH (length (filter (fun x => x ∉ acc) l)) ltac:(simpl; lia)
               [x] _ eq_refl).
    rewrite <- app_assoc. f_equal. f_equal. f_equal.
    rewrite list_filter_filter. apply list_filter_iff.
    intros y. rewrite not_elem_of_app. tauto.
Qed.

Lemma fromkeys_cons x l :
  fromkeys (x :: l) = x :: fromkeys (filter (fun y => y ∉ [x]) l).
Proof.
  unfold fromkeys at 1. cbn [foldl].
  rewrite decide_False by (by inversion 1). rewrite app_nil_l.
  apply foldl_add_key.
Qed.

Lemma fromkeys_app l1 l2 :
  fromkeys (l1 ++ l2)
  = fromkeys l1 ++ fromkeys (filter (fun x => x ∉ fromkeys l1) l2).
Proof. unfold fromkeys at 1. rewrite foldl_app. apply foldl_add_key. Qed.

Lemma fromkeys_elem_of l x : x ∈ fromkeys l ↔ x ∈ l.
Proof.
  remember (length l) as n eqn:Hn. revert l Hn.
  induction n as [n IH] using lt_wf_ind. intros l ->.
  destruct l as [|y l]; [done|]. rewrite fromkeys_cons, !elem_of_cons.
  pose proof (length_filter (fun z => z ∉ [y]) l) as Hlen.
  rewrite (IH (length (filter (fun z => z ∉ [y]) l)) ltac:(simpl; lia) _ eq_refl).
  rewrite list_elem_of_filter. split; [tauto|].
  intros [-> | Hin]; [by left|].
  destruct (decide (x = y)) as [-> | Hne]; [by left | right].
  split; [|done]. by intros ?%list_elem_of_singleton.
Qed.

Lemma fromkeys_NoDup l : NoDup (fromkeys l).
Proof.
  remember (length l) as n eqn:Hn. revert l Hn.
  induction n as [n IH] using lt_wf_ind. intros l ->.
  destruct l as [|y l]; [constructor|]. rewrite fromkeys_cons.
  pose proof (length_filter (fun z => z ∉ [y]) l) as Hlen.
  constructor.
  - rewrite fromkeys_elem_of, list_elem_of_filter. intros [Hy _].
    apply Hy. by left.
  - apply (IH (length (filter (fun z => z ∉ [y]) l))); [simpl; lia | done].
Qed.

(** X4. The sources of [parse_home] are the nine sections in their listed
    order, followed by the topic links that are not sections, each once, in
    the order of first appearance. *)
Theorem parse_home_sources topic_urls :
  let sources := fromkeys (sections ++ topic_urls) in
  NoDup sources
  ∧ (∀ x, x ∈ sources ↔ x ∈ sections ∨ x ∈ topic_urls)
  ∧ sources = sections ++ fromkeys (filter (fun x => x ∉ sections) topic_urls).
Proof.
  intros sources. split; [apply fromkeys_NoDup|]. split.
  - intros x. unfold sources. by rewrite fromkeys_elem_of, elem_of_app.
  - unfold sources. rewrite fromkeys_app.
    assert (fromkeys sections = sections) as -> by (vm_compute; reflexivity).
    done.
Qed.

End Sources.

Section HomeRequests.

Variable urlparse_path : pystr → result pystr.
Variable request_check : pystr → result unit.

Lemma source_requests_spec sources :
  let '(qs, e) := source_requests urlparse_path request_check sources in
  Forall (fun q => lreq_source q = lreq_url q
                   ∧ source_to_category urlparse_path (lreq_url q)
                     = Ret (lreq_category q, lreq_topic_slug q)
                   ∧ request_check (lreq_url q) = Ret ()) qs
  ∧ match e with
    | None => lreq_url <$> qs = sources
    | Some err =>
        ∃ src rest,
          sources = (lreq_url <$> qs) ++ src :: rest
          ∧ (source_to_category urlparse_path src = Raise err
             ∨ (∃ cs, source_to_category urlparse_path src = Ret cs)
               ∧ request_check src = Raise err)
    end.
Proof.
  induction sources as [|src rest IH]; simpl; [by split|].
  destruct (source_to_category urlparse_path src) as [[cat slug]|err] eqn:Hsrc.
  - destruct (request_check src) as [[]|err] eqn:Hreq.
    + destruct (source_requests urlparse_path request_check rest) as [qs e].
      destruct IH as [Hall He]. split; [by constructor|].
      destruct e as [err|].
      * destruct He as (src' & rest' & -> & Hraise). by exists src', rest'.
      * rewrite fmap_cons. cbn [lreq_url]. by rewrite He.
    + split; [constructor|]. exists src, rest. split; [done|].
      right. split; [by eexists | done].
  - split; [constructor|]. exists src, rest. split; [done|]. by left.
Qed.

(** X5. [parse_home] yields one listing request per source, in order, each
    with the source as URL and as [meta] source and with the classification
    of the source, up to the first source on which [source_to_category]
    raises or which [scrapy.Request] rejects; the generator ends there with
    that exception.  Without such a source every source gets its
    request. *)
Theorem parse_home_requests topic_urls :
  let sources := fromkeys (sections ++ topic_urls) in
  let '(qs, e) := parse_home urlparse_path request_check topic_urls in
  Forall (fun q => lreq_source q = lreq_url q
                   ∧ source_to_category urlparse_path (lreq_url q)
                     = Ret (lreq_category q, lreq_topic_slug q)
                   ∧ request_check (lreq_url q) = Ret ()) qs
  ∧ match e with
    | None => lreq_url <$> qs = sources
    | Some err =>
        ∃ src rest,
          sources = (lreq_url <$> qs) ++ src :: rest
          ∧ (source_to_category urlparse_path src = Raise err
             ∨ (∃ cs, source_to_category urlparse_path src = Ret cs)
               ∧ request_check src = Raise err)
    end.
Proof. apply source_requests_spec. Qed.

(** X6. When [urlparse] accepts the nine section URLs, every topic link
    starts with "https://www.dhakapost.com/topic/", as the selector of
    [parse_home] has it, and [scrapy.Request] accepts the section URLs and
    the topic links, [parse_home] ends without an exception and requests
    every source. *)
Theorem parse_home_completes topic_urls :
  Forall (fun s => ∃ p, urlparse_path s = Ret p) sections →
  Forall (fun t => startswith (py "https://www.dhakapost.com/topic/") t = true)
         topic_urls →
  Forall (fun s => request_check s = Ret ()) (sections ++ topic_urls) →
  ∃ qs, parse_home urlparse_path request_check topic_urls = (qs, None)
        ∧ lreq_url <$> qs = fromkeys (sections ++ topic_urls).
Proof.
  intros Hsec Htop Hreq.
  pose proof (parse_home_requests topic_urls) as H. cbv zeta in H.
  destruct (parse_home urlparse_path request_check topic_urls) as [qs [err|]].
  - exfalso. destruct H as (_ & src & rest & Hsrc & Hraise).
    assert (src ∈ fromkeys (sections ++ topic_urls)) as Hin
      by (rewrite Hsrc; set_solver).
    rewrite fromkeys_elem_of in Hin.
    destruct Hraise as [Hraise | [_ Hraise]].
    + apply source_to_category_raises in Hraise as (_ & Hc & Hu).
      apply elem_of_app in Hin as [Hin | Hin].
      * rewrite Forall_forall in Hsec.
        destruct (Hsec src Hin) as (p & Hp). congruence.
      * rewrite Forall_forall in Htop. specialize (Htop src Hin).
        apply startswith_iff in Htop as (t & ->).
        assert (contains (py "/topic/")
                  (py "https://www.dhakapost.com/topic/" ++ t) = true) as Hc'.
        { apply contains_iff. by exists (py "https://www.dhakapost.com"), t. }
        congruence.
    + rewrite Forall_forall in Hreq. specialize (Hreq src Hin). congruence.
  - destruct H as [_ H]. by exists qs.
Qed.

(** X7. The article requests that [parse_list] yields for the response to a
    listing request of [parse_home] carry that source as [source_list] and
    the classification of that source as category and topic slug. *)
Theorem article_requests_carry_source topic_urls q final_url page seen r :
  q ∈ (parse_home urlparse_path request_check topic_urls).1 →
  r ∈ lr_requests (parse_list (list_response q final_url) page seen) →
  source_list (req_meta r) = lreq_url q
  ∧ source_to_category urlparse_path (lreq_url q)
    = Ret (category (req_meta r), topic_slug (req_meta r)).
Proof.
  intros Hq Hr.
  pose proof (source_requests_spec (fromkeys (sections ++ topic_urls))) as H.
  unfold parse_home in Hq.
  destruct (source_requests urlparse_path request_check
              (fromkeys (sections ++ topic_urls))) as [qs e]. simpl in Hq.
  destruct H as [Hall _]. rewrite Forall_forall in Hall.
  destruct (Hall q Hq) as (Hsrc & Hcat & _).
  destruct (parse_list_inv (list_response q final_url) page seen)
    as (_ & _ & Hreqs & _).
  rewrite Forall_forall in Hreqs. destruct (Hreqs r Hr) as (-> & _).
  unfold list_meta, list_response. simpl. by rewrite Hsrc.
Qed.

End HomeRequests.

Lemma parse_home_requests_witness :
  ∃ qs, parse_home urlparse_site request_needs_scheme [py "/topic/x"]
        = (qs, Some ValueError)
        ∧ lreq_url <$> qs = sections
        ∧ source_to_category urlparse_site (py "/topic/x")
          = Ret (py "topic", Some (py "x"))
        ∧ request_needs_scheme (py "/topic/x") = Raise ValueError.
Proof.
  pose proof (parse_home_requests urlparse_site request_needs_scheme
                [py "/topic/x"]) as H.
  cbv zeta in H.
  destruct (parse_home urlparse_site request_needs_scheme [py "/topic/x"])
    as [qs e] eqn:Hrun.
  vm_compute in Hrun. injection Hrun as <- <-.
  destruct H as (_ & src & rest & Hsrc & _).
  eexists. split; [reflexivity|].
  split; [vm_compute; reflexivity|].
  split; vm_compute; reflexivity.
Defined.

Lemma parse_home_completes_witness :
  ∃ qs, parse_home urlparse_site request_needs_scheme
          [py "https://www.dhakapost.com/topic/cricket"]
        = (qs, None)
        ∧ lreq_url <$> qs
          = fromkeys (sections ++ [py "https://www.dhakapost.com/topic/cricket"]).
Proof.
  apply (parse_home_completes urlparse_site request_needs_scheme
           [py "https://www.dhakapost.com/topic/cricket"]).
  - repeat (constructor; [eexists; reflexivity|]). constructor.
  - repeat constructor.
  - repeat (constructor; [reflexivity|]). constructor.
Defined.

Lemma article_requests_carry_source_witness :
  source_list sample_meta = py "https://www.dhakapost.com/sports"
  ∧ source_to_category urlparse_site (py "https://www.dhakapost.com/sports")
    = Ret (category sample_meta, topic_slug sample_meta).
Proof.
  apply (article_requests_carry_source urlparse_site request_needs_scheme []
           {| lreq_url := py "https://www.dhakapost.com/sports";
              lreq_source := py "https://www.dhakapost.com/sports";
              lreq_category := py "sports";
              lreq_topic_slug := None |}
           (py "https://www.dhakapost.com/sports") one_link_page seen_links_init
           {| req_url := sample_article; req_meta := sample_meta |}).
  - apply list_elem_of_In. vm_compute. tauto.
  - vm_compute. apply list_elem_of_here.
Defined.

(** ** [parse_list]: accounting *)

Section Accounting.

Implicit Types (m : Meta) (seen : gset pystr) (page : nat → RoundObs).

(** X8. One walk over the hrefs of a round: [new_count] is the number of
    requests yielded, and the registry afterwards holds what it held
    before, the URLs requested and the URLs other callbacks added, nothing
    else. *)
Theorem harvest_registry m items seen :
  let '(rs, seen', n) := harvest m items seen in
  n = length rs
  ∧ seen' = seen ∪ list_to_set (req_url <$> rs) ∪ list_to_set (others_of items)
  ∧ (others_of items = [] → size seen' = size seen + n).
Proof.
  destruct (harvest m items seen) as [[rs seen'] n] eqn:Hh.
  pose proof (harvest_inv m items seen rs seen' n Hh) as (_ & Hn & Hnd & Hall).
  split; [done|].
  assert (seen' = seen ∪ list_to_set (req_url <$> rs) ∪ list_to_set (others_of items))
    as Heq.
  { clear Hn Hnd Hall. revert seen rs seen' n Hh.
    induction items as [|[u|u] items IH]; intros seen rs seen' n; simpl.
    - intros [= <- <- <-]. set_solver.
    - destruct (visit m seen u) as [[r|] seen0] eqn:Hv.
      + apply visit_some in Hv as (_ & _ & -> & ->).
        destruct (harvest m items ({[u]} ∪ seen)) as [[rs0 s0] n0] eqn:Hh0.
        intros [= <- <- <-]. rewrite (IH _ _ _ _ Hh0). simpl. set_solver.
      + apply visit_none in Hv as [_ ->]. apply IH.
    - intros Hh. rewrite (IH _ _ _ _ Hh). set_solver. }
  split; [done|].
  intros Hno. rewrite Heq, Hno, Hn. simpl.
  rewrite (right_id_L ∅ (∪)). rewrite size_union.
  - f_equal. rewrite size_list_to_set by done. by rewrite length_fmap.
  - intros x Hx1 Hx2. apply elem_of_list_to_set in Hx2.
    apply list_elem_of_fmap in Hx2 as (r & -> & Hr).
    rewrite Forall_forall in Hall. destruct (Hall r Hr) as (_ & _ & Hnin & _).
    done.
Qed.

(** X9. Walking hrefs that were walked before yields nothing: after a walk
    over [items], a walk over the same [items], by any callback and on any
    registry that has grown since, yields no request and leaves the
    registry as it is. *)
Theorem harvest_again_yields_nothing m m' items seen seen2 :
  (harvest m items seen).1.2 ⊆ seen2 →
  harvest m' items seen2 = ([], seen2, 0).
Proof.
  revert seen seen2. induction items as [|[u|u] items IH]; intros seen seen2; simpl.
  - done.
  - pose proof (visit_settles m seen u) as Hs.
    pose proof (visit_mono m seen u) as Hm.
    destruct (visit m seen u) as [r seen0] eqn:Hv. simpl in Hs, Hm.
    assert ((harvest m items seen0).1.2 ⊆ seen2 →
            harvest m' items seen2 = ([], seen2, 0)) as Hrest by apply IH.
    assert ((harvest m items seen0).1.2 ⊆ seen2 → seen0 ⊆ seen2) as Hsub.
    { intros H. destruct (harvest m items seen0) as [[rs s] n] eqn:Hh.
      apply harvest_inv in Hh as (? & _). simpl in H. set_solver. }
    destruct r as [r|];
      (destruct (harvest m items seen0) as [[rs s] n] eqn:Hh; simpl;
       intros Hsub2; rewrite visit_settled;
       [apply Hrest; exact Hsub2
       |destruct Hs as [?|?]; [by left | right; apply (Hsub Hsub2); done]]).
  - intros Hsub.
    assert ({[u]} ∪ seen ⊆ seen2) as Hu.
    { destruct (harvest m items ({[u]} ∪ seen)) as [[rs s] n] eqn:Hh.
      apply harvest_inv in Hh as (? & _). simpl in Hsub. set_solver. }
    replace ({[u]} ∪ seen2) with seen2 by set_solver.
    by apply (IH ({[u]} ∪ seen)).
Qed.

End Accounting.

Lemma harvest_again_yields_nothing_witness :
  harvest sample_meta [Href sample_article] {[ sample_article ]}
  = ([], {[ sample_article ]}, 0).
Proof.
  apply (harvest_again_yields_nothing sample_meta sample_meta
           [Href sample_article] seen_links_init).
  apply (bool_decide_unpack _). vm_compute. reflexivity.
Defined.

Lemma harvest_registry_witness :
  size ((harvest sample_meta [Href sample_article] seen_links_init).1.2)
  = size seen_links_init + (harvest sample_meta [Href sample_article] seen_links_init).2.
Proof.
  pose proof (harvest_registry sample_meta [Href sample_article] seen_links_init) as H.
  destruct (harvest sample_meta [Href sample_article] seen_links_init)
    as [[rs seen'] n].
  destruct H as (_ & _ & H). apply H. reflexivity.
Defined.

Section LogAccounting.

Implicit Types (m : Meta) (seen : gset pystr) (page : nat → RoundObs).

#[local] Opaque target_unique_links stale_limit.

(** A walk adds at least the URLs it requests. *)
Lemma harvest_size_lower m items seen rs seen' n :
  harvest m items seen = (rs, seen', n) → size seen + n ≤ size seen'.
Proof.
  intros Hh. pose proof (harvest_inv m items seen rs seen' n Hh)
    as (Hsub & -> & Hnd & Hall).
  rewrite <- (length_fmap req_url), <- (size_list_to_set (C := gset pystr)) by done.
  rewrite <- size_union.
  - apply subseteq_size. intros x [Hx | Hx]%elem_of_union; [set_solver|].
    apply elem_of_list_to_set, list_elem_of_fmap in Hx as (r & -> & Hr).
    rewrite Forall_forall in Hall. by destruct (Hall r Hr) as (_ & _ & _ & ?).
  - intros x Hx1 Hx2.
    apply elem_of_list_to_set, list_elem_of_fmap in Hx2 as (r & -> & Hr).
    rewrite Forall_forall in Hall. by destruct (Hall r Hr) as (_ & _ & ? & _).
Qed.

Lemma parse_list_loop_log m page n i last st seen :
  let r := parse_list_loop m page n i last st seen in
  list_sum (rl_new <$> lr_log r) = length (lr_requests r)
  ∧ (∀ k e, lr_log r !! k = Some e →
            rl_click e = i + k + 1
            ∧ rl_links e = length (hrefs_of (ro_items (page (i + k)))))
  ∧ (∀ e, lr_log r !! 0 = Some e → size seen + rl_new e ≤ rl_total e)
  ∧ (∀ k e e', lr_log r !! k = Some e → lr_log r !! S k = Some e' →
               rl_total e + rl_new e' ≤ rl_total e').
Proof.
  revert i last st seen. induction n as [|n IH]; intros i last st seen.
  { simpl. split; [done|]. split; [done|]. split; done. }
  rewrite parse_list_loop_S.
  destruct (target_unique_links <=? size seen).
  { simpl. split; [done|]. split; [done|]. split; done. }
  cbv zeta.
  destruct (harvest m (ro_items (page i)) seen) as [[reqs seen1] nc] eqn:Hh.
  pose proof (harvest_inv _ _ _ _ _ _ Hh) as (_ & Hnc & _).
  pose proof (harvest_size_lower _ _ _ _ _ _ Hh) as Hsz.
  assert (∀ why,
    let r := {| lr_requests := reqs;
                lr_log := [ {| rl_click := i + 1;
                               rl_links := length (hrefs_of (ro_items (page i)));
                               rl_new := nc; rl_total := size seen1 |} ];
                lr_seen := seen1; lr_stop := why |} in
    list_sum (rl_new <$> lr_log r) = length (lr_requests r)
    ∧ (∀ k e, lr_log r !! k = Some e →
              rl_click e = i + k + 1
              ∧ rl_links e = length (hrefs_of (ro_items (page (i + k)))))
    ∧ (∀ e, lr_log r !! 0 = Some e → size seen + rl_new e ≤ rl_total e)
    ∧ (∀ k e e', lr_log r !! k = Some e → lr_log r !! S k = Some e' →
                 rl_total e + rl_new e' ≤ rl_total e')) as Hstop.
  { intros why. simpl. split; [lia|]. split; [|split].
    - intros [|k] e; [|done]. intros [= <-]. simpl.
      rewrite Nat.add_0_r. split; [lia | done].
    - intros e [= <-]. simpl. lia.
    - intros [|k] e e'; done. }
  destruct (stale_limit <=? _); [apply Hstop|].
  destruct (_ =? 0); [apply Hstop|].
  destruct (negb _); [apply Hstop|].
  clear Hstop.
  match goal with |- context [parse_list_loop m page n ?i' ?lt' ?st' ?s'] =>
    specialize (IH i' lt' st' s');
    pose proof (subseteq_size _ _ (add_all_mono (ro_others (page i)) seen1)) as Hadd;
    set (r := parse_list_loop m page n i' lt' st' s') in *
  end.
  cbv zeta in IH. destruct IH as (Hsum & Hidx & Hfirst & Hnext).
  cbn [lr_log lr_requests]. split; [|split; [|split]].
  - rewrite fmap_cons. cbn [rl_new list_sum foldr fold_right].
    change (fold_right Nat.add 0 (rl_new <$> lr_log r))
      with (list_sum (rl_new <$> lr_log r)).
    rewrite length_app. lia.
  - intros [|k] e.
    + intros [= <-]. simpl. rewrite Nat.add_0_r. split; [lia | done].
    + intros He. destruct (Hidx k e He) as [H1 H2].
      replace (i + S k) with (S i + k) by lia. split; [lia | done].
  - intros e [= <-]. simpl. lia.
  - intros [|k] e e'.
    + intros [= <-] He'. simpl. specialize (Hfirst e' He'). lia.
    + intros He He'. by apply (Hnext k).
Qed.

(** X10. The log of [parse_list]: the new-link counts add up to the number
    of article requests; the entry of round [k] carries click number
    [k + 1] and the number of hrefs the page showed in that round; and from
    one round to the next the logged registry size grows at least by the
    new links of the later round. *)
Theorem parse_list_log_accounts response page seen :
  let r := parse_list response page seen in
  list_sum (rl_new <$> lr_log r) = length (lr_requests r)
  ∧ (∀ k e, lr_log r !! k = Some e →
            rl_click e = k + 1
            ∧ rl_links e = length (hrefs_of (ro_items (page k))))
  ∧ (∀ e, lr_log r !! 0 = Some e → size seen + rl_new e ≤ rl_total e)
  ∧ (∀ k e e', lr_log r !! k = Some e → lr_log r !! S k = Some e' →
               rl_total e + rl_new e' ≤ rl_total e').
Proof.
  unfold parse_list.
  exact (parse_list_loop_log (list_meta response) page max_clicks_per_source
           0 0 0 seen).
Qed.

End LogAccounting.

Lemma parse_list_log_accounts_witness :
  rl_click {| rl_click := 1; rl_links := 1; rl_new := 1; rl_total := 1 |} = 0 + 1
  ∧ rl_links {| rl_click := 1; rl_links := 1; rl_new := 1; rl_total := 1 |}
    = length (hrefs_of (ro_items (one_link_page 0))).
Proof.
  apply (proj1 (proj2 (parse_list_log_accounts sample_response one_link_page
                         seen_links_init)) 0).
  vm_compute. reflexivity.
Defined.

Section StopReasons.

Implicit Types (m : Meta) (seen : gset pystr) (page : nat → RoundObs).

#[local] Opaque target_unique_links stale_limit.

Lemma parse_list_loop_exhausted m page n i last st seen :
  lr_stop (parse_list_loop m page n i last st seen) = ClicksExhausted →
  length (lr_log (parse_list_loop m page n i last st seen)) = n.
Proof.
  revert i last st seen. induction n as [|n IH]; intros i last st seen; [done|].
  rewrite parse_list_loop_S.
  destruct (target_unique_links <=? size seen); [done|]. cbv zeta.
  destruct (harvest m (ro_items (page i)) seen) as [[reqs seen1] nc].
  destruct (stale_limit <=? _); [done|].
  destruct (_ =? 0); [done|].
  destruct (negb _); [done|].
  cbn [lr_stop lr_log length]. intros H. f_equal. by apply IH.
Qed.

Lemma parse_list_loop_target_stop m page n i last st seen :
  lr_stop (parse_list_loop m page n i last st seen) = TargetReached →
  target_unique_links ≤ size (lr_seen (parse_list_loop m page n i last st seen)).
Proof.
  revert i last st seen. induction n as [|n IH]; intros i last st seen; [done|].
  rewrite parse_list_loop_S.
  destruct (target_unique_links <=? size seen) eqn:Ht.
  { intros _. by apply Nat.leb_le in Ht. }
  cbv zeta.
  destruct (harvest m (ro_items (page i)) seen) as [[reqs seen1] nc].
  destruct (stale_limit <=? _); [done|].
  destruct (_ =? 0); [done|].
  destruct (negb _); [done|].
  cbn [lr_stop lr_seen]. apply IH.
Qed.

(** The run of stale rounds that ends the loop: the rounds since the loop
    state was entered, when they and the [st] stale rounds before make five,
    or five rounds inside the log. *)
Lemma parse_list_loop_stale_stop m page n i last st seen :
  last ≤ size seen → st < stale_limit →
  lr_stop (parse_list_loop m page n i last st seen) = StaleLimit →
  ∃ pre suf T,
    lr_log (parse_list_loop m page n i last st seen) = pre ++ suf
    ∧ Forall (fun e => rl_new e = 0 ∧ rl_total e = T) suf
    ∧ (length suf = stale_limit
       ∨ (pre = [] ∧ length suf + st = stale_limit ∧ T = last)).
Proof.
  revert i last st seen. induction n as [|n IH]; intros i last st seen Hlast Hst;
    [done|].
  rewrite parse_list_loop_S.
  destruct (target_unique_links <=? size seen); [done|]. cbv zeta.
  destruct (harvest m (ro_items (page i)) seen) as [[reqs seen1] nc] eqn:Hh.
  pose proof (harvest_size_lower _ _ _ _ _ _ Hh) as Hsz.
  pose proof (subseteq_size _ _ (add_all_mono (ro_others (page i)) seen1)) as Hadd.
  set (e := {| rl_click := i + 1;
               rl_links := length (hrefs_of (ro_items (page i)));
               rl_new := nc; rl_total := size seen1 |}).
  destruct (size seen1 =? last) eqn:Heq.
  - (* a stale round *)
    apply Nat.eqb_eq in Heq.
    assert (nc = 0) as Hnc by lia.
    destruct (stale_limit <=? st + 1) eqn:Hlim.
    + intros _. apply Nat.leb_le in Hlim. exists [], [e], last.
      split; [done|]. split; [by repeat constructor|].
      right. split; [done|]. split; [simpl; lia | done].
    + destruct (_ =? 0); [done|]. destruct (negb _); [done|].
      cbn [lr_stop lr_log]. intros Hstop. apply Nat.leb_gt in Hlim.
      destruct (IH (S i) last (st + 1) (add_all (ro_others (page i)) seen1)
                  ltac:(lia) Hlim Hstop)
        as (pre & suf & T & Hlog & Hall & Hlen).
      destruct Hlen as [Hlen | (-> & Hlen & ->)].
      * exists (e :: pre), suf, T. rewrite Hlog. split; [done|]. split; [done|].
        by left.
      * exists [], (e :: suf), last. rewrite Hlog. split; [done|].
        split; [by constructor|]. right. split; [done|]. split; [simpl; lia | done].
  - (* a round that changed the size *)
    destruct (stale_limit <=? 0) eqn:Hlim; [apply Nat.leb_le in Hlim; lia|].
    destruct (_ =? 0); [done|]. destruct (negb _); [done|].
    cbn [lr_stop lr_log]. intros Hstop.
    destruct (IH (S i) (size seen1) 0 (add_all (ro_others (page i)) seen1)
                ltac:(lia) ltac:(lia) Hstop)
      as (pre & suf & T & Hlog & Hall & Hlen).
    exists (e :: pre), suf, T. rewrite Hlog. split; [done|]. split; [done|].
    left. destruct Hlen as [Hlen | (_ & Hlen & _)]; lia.
Qed.

(** X11. Why [parse_list] left its loop: when the range ran out, all 80
    rounds were run; when the target stopped it, the registry holds at
    least 2100 URLs; when staleness stopped it, the last five rounds found
    no new link and logged the same registry size. *)
Theorem parse_list_stop_reasons response page seen :
  let r := parse_list response page seen in
  (lr_stop r = ClicksExhausted → length (lr_log r) = max_clicks_per_source)
  ∧ (lr_stop r = TargetReached → target_unique_links ≤ size (lr_seen r))
  ∧ (lr_stop r = StaleLimit →
     ∃ pre suf T,
       lr_log r = pre ++ suf ∧ length suf = stale_limit
       ∧ Forall (fun e => rl_new e = 0 ∧ rl_total e = T) suf).
Proof.
  unfold parse_list. cbv zeta. split; [apply parse_list_loop_exhausted|].
  split; [apply parse_list_loop_target_stop|].
  intros Hstop.
  destruct (parse_list_loop_stale_stop (list_meta response) page
              max_clicks_per_source 0 0 0 seen ltac:(lia)
              ltac:(rewrite stale_limit_eq; lia) Hstop)
    as (pre & suf & T & Hlog & Hall & Hlen).
  exists pre, suf, T. split; [done|]. split; [|done].
  destruct Hlen as [? | (_ & ? & _)]; lia.
Qed.

End StopReasons.

Lemma parse_list_stop_reasons_witness :
  ∃ pre suf T,
    lr_log (parse_list sample_response quiet_page seen_links_init) = pre ++ suf
    ∧ length suf = stale_limit
    ∧ Forall (fun e => rl_new e = 0 ∧ rl_total e = T) suf.
Proof.
  apply (proj2 (proj2 (parse_list_stop_reasons sample_response quiet_page
                         seen_links_init))).
  vm_compute. reflexivity.
Defined.

Section Provenance.

Implicit Types (m : Meta) (seen : gset pystr) (page : nat → RoundObs).

#[local] Opaque target_unique_links stale_limit.

Lemma elem_of_others_of u items : u ∈ others_of items ↔ Other u ∈ items.
Proof.
  unfold others_of. rewrite list_elem_of_omap. split.
  - intros ([v|v] & Hin & Hv); [done|]. by injection Hv as ->.
  - intros Hin. by exists (Other u).
Qed.

Lemma parse_list_loop_provenance m page n i last st seen u :
  u ∈ lr_seen (parse_list_loop m page n i last st seen) →
  u ∈ seen
  ∨ u ∈ req_url <$> lr_requests (parse_list_loop m page n i last st seen)
  ∨ ∃ k, i ≤ k < i + n
         ∧ (u ∈ ro_others (page k) ∨ Other u ∈ ro_items (page k)).
Proof.
  revert i last st seen. induction n as [|n IH]; intros i last st seen.
  { simpl. by left. }
  rewrite parse_list_loop_S.
  destruct (target_unique_links <=? size seen); [by left|]. cbv zeta.
  pose proof (harvest_registry m (ro_items (page i)) seen) as Hreg.
  destruct (harvest m (ro_items (page i)) seen) as [[reqs seen1] nc] eqn:Hh.
  destruct Hreg as (_ & Hseen1 & _).
  assert (∀ x, x ∈ seen1 →
               x ∈ seen ∨ x ∈ req_url <$> reqs ∨ Other x ∈ ro_items (page i))
    as Hround.
  { intros x. rewrite Hseen1, !elem_of_union, !elem_of_list_to_set,
      elem_of_others_of. tauto. }
  assert (u ∈ seen1 →
          u ∈ seen ∨ u ∈ req_url <$> reqs
          ∨ ∃ k, i ≤ k < i + S n
                 ∧ (u ∈ ro_others (page k) ∨ Other u ∈ ro_items (page k)))
    as Hstop.
  { intros Hu. destruct (Hround u Hu) as [?|[?|?]]; [by left | right; by left |].
    right. right. exists i. split; [lia | by right]. }
  destruct (stale_limit <=? _); [exact Hstop|].
  destruct (_ =? 0); [exact Hstop|].
  destruct (negb _); [exact Hstop|].
  cbn [lr_seen lr_requests]. intros Hu.
  apply IH in Hu as [Hu | [Hu | (k & Hk & Hu)]].
  - unfold add_all in Hu. apply elem_of_union in Hu as [Hu | Hu].
    + apply elem_of_list_to_set in Hu. right. right. exists i.
      split; [lia | by left].
    + destruct (Hround u Hu) as [?|[?|?]]; [by left | |].
      * right. left. rewrite fmap_app. set_solver.
      * right. right. exists i. split; [lia | by right].
  - right. left. rewrite fmap_app. set_solver.
  - right. right. exists k. split; [lia | done].
Qed.

Lemma parse_list_loop_alone m page n i last st seen :
  (∀ k, ro_others (page k) = [] ∧ others_of (ro_items (page k)) = []) →
  lr_seen (parse_list_loop m page n i last st seen)
  = seen ∪ list_to_set (req_url <$> lr_requests (parse_list_loop m page n i last st seen)).
Proof.
  intros Hno. revert i last st seen. induction n as [|n IH]; intros i last st seen.
  { simpl. set_solver. }
  rewrite parse_list_loop_S.
  destruct (target_unique_links <=? size seen); [simpl; set_solver|]. cbv zeta.
  pose proof (harvest_registry m (ro_items (page i)) seen) as Hreg.
  destruct (harvest m (ro_items (page i)) seen) as [[reqs seen1] nc] eqn:Hh.
  destruct Hreg as (_ & Hseen1 & _).
  destruct (Hno i) as [Ho1 Ho2]. rewrite Ho2 in Hseen1.
  assert (seen1 = seen ∪ list_to_set (req_url <$> reqs)) as Hs by set_solver.
  destruct (stale_limit <=? _); [exact Hs|].
  destruct (_ =? 0); [exact Hs|].
  destruct (negb _); [exact Hs|].
  cbn [lr_seen lr_requests]. rewrite IH, Ho1. unfold add_all.
  rewrite fmap_app, Hs. set_solver.
Qed.

Lemma parse_list_provenance response page seen u :
  u ∈ lr_seen (parse_list response page seen) →
  u ∈ seen
  ∨ u ∈ req_url <$> lr_requests (parse_list response page seen)
  ∨ ∃ k, 0 ≤ k < 0 + max_clicks_per_source
         ∧ (u ∈ ro_others (page k) ∨ Other u ∈ ro_items (page k)).
Proof. unfold parse_list. apply parse_list_loop_provenance. Qed.

Lemma parse_list_alone response page seen :
  (∀ k, ro_others (page k) = [] ∧ others_of (ro_items (page k)) = []) →
  lr_seen (parse_list response page seen)
  = seen ∪ list_to_set (req_url <$> lr_requests (parse_list response page seen)).
Proof. unfold parse_list. apply parse_list_loop_alone. Qed.

(** X12. [parse_list] puts nothing into the registry but the URLs it
    requests: a URL in the registry afterwards was there before, was
    requested by this call, or was added by another callback meanwhile.
    With no other callback at work the registry grows by exactly the number
    of requests. *)
Theorem parse_list_registry_provenance response page seen :
  let r := parse_list response page seen in
  (∀ u, u ∈ lr_seen r →
        u ∈ seen ∨ u ∈ req_url <$> lr_requests r
        ∨ ∃ k, k < max_clicks_per_source
               ∧ (u ∈ ro_others (page k) ∨ Other u ∈ ro_items (page k)))
  ∧ ((∀ k, ro_others (page k) = [] ∧ others_of (ro_items (page k)) = []) →
     size (lr_seen r) = size seen + length (lr_requests r)).
Proof.
  cbv zeta. split.
  - intros u Hu.
    apply parse_list_provenance in Hu as [?|[?|(k & Hk & Hu)]];
      [by left | right; by left |].
    right. right. exists k. split; [exact (proj2 Hk) | done].
  - intros Hno.
    destruct (parse_list_inv response page seen) as (_ & Hnd & Hall & _).
    rewrite (parse_list_alone response page seen Hno) at 1.
    rewrite size_union.
    + rewrite size_list_to_set by done. by rewrite length_fmap.
    + intros x Hx1 Hx2.
      apply elem_of_list_to_set, list_elem_of_fmap in Hx2 as (q & -> & Hq).
      rewrite Forall_forall in Hall. by destruct (Hall q Hq) as (_ & _ & ? & _).
Qed.

End Provenance.

Lemma parse_list_registry_provenance_witness :
  size (lr_seen (parse_list sample_response one_link_page seen_links_init))
  = size seen_links_init
    + length (lr_requests (parse_list sample_response one_link_page seen_links_init)).
Proof.
  apply (proj2 (parse_list_registry_provenance sample_response one_link_page
                  seen_links_init)).
  intros k. split; reflexivity.
Defined.

(** ** [parse_article]: the record *)

Section Record_.

Variable urlparse_path : pystr → result pystr.

Implicit Types (s cur x y : pystr) (nodes : list pystr).

Lemma strip_nil : strip [] = [].
Proof. reflexivity. Qed.

(** X13. The record of a text response: URL and language are fixed by the
    response, the section comes from the URL alone, the date is the first
    text of a time element, trimmed, the author is the first non-empty
    answer of the two author queries, trimmed, and absent when both are
    missing or empty; the category and topic slug of the response's meta
    do not reach the record. *)
Theorem article_record_fields u c t sel :
  ∃ rec,
    parse_article urlparse_path (TextResponse u c t sel) = ([], [rec])
    ∧ url rec = u ∧ language rec = py "bn"
    ∧ section rec = url_to_section urlparse_path u
    ∧ date rec = strip <$> head (css_time_text sel)
    ∧ (author rec = None ↔
       (∀ a, head (xpath_author_any sel) = Some a → a = [])
       ∧ (∀ a, head (xpath_author_p sel) = Some a → a = []))
    ∧ (∀ a, head (xpath_author_any sel) = Some a → a ≠ [] →
            author rec = Some (strip a))
    ∧ (∀ a, (∀ a0, head (xpath_author_any sel) = Some a0 → a0 = []) →
            head (xpath_author_p sel) = Some a → a ≠ [] →
            author rec = Some (strip a))
    ∧ (∀ c' t', parse_article urlparse_path (TextResponse u c' t' sel)
                = ([], [rec])).
Proof.
  eexists. split; [reflexivity|]. cbn [url language section date author].
  split; [done|]. split; [done|]. split; [done|]. split.
  { unfold get. destruct (head (css_time_text sel)) as [[|d l]|]; done. }
  unfold get.
  destruct (first_truthy_stripped (head (xpath_author_any sel))
              (head (xpath_author_p sel))) as (H1 & H2 & H3).
  split; [exact H1|]. split; [exact H2|]. split; [exact H3 | done].
Qed.

Lemma join_cons_cons sep x y nodes :
  join sep (x :: y :: nodes) = x ++ sep ++ join sep (y :: nodes).
Proof. reflexivity. Qed.

Lemma join_no_char c sep nodes :
  c ∉ sep → Forall (fun n => c ∉ n) nodes → c ∉ join sep nodes.
Proof.
  intros Hsep. induction 1 as [|x nodes Hx Hall IH]; [by inversion 1|].
  destruct nodes as [|y nodes]; [done|].
  rewrite join_cons_cons, !not_elem_of_app. done.
Qed.

Lemma join_head sep x nodes : x ≠ [] → head (join sep (x :: nodes)) = head x.
Proof.
  intros Hx. destruct nodes as [|y nodes]; [done|].
  rewrite join_cons_cons. by destruct x.
Qed.

Lemma join_last sep nodes x :
  Forall (fun n => n ≠ []) nodes → last nodes = Some x →
  last (join sep nodes) = last x.
Proof.
  unfold pystr, char in *.
  induction 1 as [|y nodes Hy Hall IH]; [done|].
  destruct nodes as [|z nodes].
  - by intros [= ->].
  - rewrite last_cons_cons. intros Hlast. rewrite join_cons_cons, !last_app.
    pose proof (IH Hlast) as IH'. unfold pystr, char in *. rewrite IH'.
    assert (x ≠ []) as Hx.
    { rewrite Forall_forall in Hall. apply Hall. by eapply last_Some_elem_of. }
    destruct (last x) eqn:Hlx; [done|]. by apply last_None in Hlx.
Qed.

(** X14. The body is normalised text: it holds no non-breaking space and
    neither starts nor ends with whitespace. *)
Theorem body_is_normalised u c t sel :
  ∃ rec,
    (parse_article urlparse_path (TextResponse u c t sel)).2 = [rec]
    ∧ (nbsp ∉ body rec)
    ∧ strip (body rec) = body rec.
Proof.
  eexists. split; [reflexivity|]. cbn [body]. unfold body_of.
  pose proof (kept_nodes_normalised (xpath_paras sel)) as Hall.
  revert Hall. generalize (drop_bad (clean_paras (xpath_paras sel))).
  intros nodes Hall. split.
  - apply join_no_char; [by intros ?%list_elem_of_singleton|].
    eapply Forall_impl; [exact Hall|]. by intros n (_ & _ & ? & _).
  - destruct nodes as [|x nodes]; [done|].
    apply Forall_cons in Hall as Hall'. destruct Hall' as [(_ & Hx & _ & Hsx) _].
    apply strip_by_fixed.
    + intros d. rewrite join_head by done. rewrite <- Hsx.
      intros Hd. apply head_Some in Hd as (l' & Hd). by eapply strip_by_head.
    + intros d Hd.
      destruct (last (x :: nodes)) as [y|] eqn:Hy; [|by apply last_None in Hy].
      rewrite (join_last _ _ y) in Hd; [|
        eapply Forall_impl; [exact Hall|]; by intros n (_ & ? & _) | done].
      rewrite Forall_forall in Hall.
      destruct (Hall y (last_Some_elem_of _ _ Hy)) as (_ & _ & _ & Hsy).
      rewrite <- Hsy in Hd. by eapply strip_by_last.
Qed.

(** Whitespace between two texts separates their tokens. *)
Lemma split_ws_from_space cur s (t : pystr) :
  split_ws_from cur (s ++ space :: t) = split_ws_from cur s ++ split_ws t.
Proof.
  revert cur. induction s as [|d s IH]; intros cur.
  - rewrite app_nil_l. cbn [split_ws_from]. change (isspace space) with true.
    cbv iota. by destruct cur.
  - rewrite <- app_comm_cons. cbn [split_ws_from]. destruct (isspace d).
    + destruct cur; [apply IH|]. rewrite IH. done.
    + apply IH.
Qed.

Lemma split_ws_join_concat nodes :
  split_ws (join [space] nodes) = concat (split_ws <$> nodes).
Proof.
  induction nodes as [|x nodes IH]; [done|].
  destruct nodes as [|y nodes].
  - simpl. by rewrite app_nil_r.
  - rewrite join_cons_cons. change ([space] ++ ?l) with (space :: l).
    unfold split_ws at 1. rewrite split_ws_from_space.
    rewrite IH. done.
Qed.

Lemma split_ws_from_not_nil cur s : cur ≠ [] → split_ws_from cur s ≠ [].
Proof.
  revert cur. induction s as [|d s IH]; intros cur Hcur; simpl.
  - by destruct cur.
  - destruct (isspace d); [by destruct cur | by apply IH].
Qed.

Lemma split_ws_trimmed_not_nil n : n ≠ [] → strip n = n → split_ws n ≠ [].
Proof.
  intros Hne Hs. destruct n as [|d l]; [done|].
  unfold split_ws. cbn [split_ws_from].
  assert (isspace d = false) as ->.
  { eapply strip_by_head. exact Hs. }
  by apply split_ws_from_not_nil.
Qed.

(** X15. The token count is the sum of the token counts of the texts
    joined into the body, which are the paragraph texts that
    [parse_article] keeps after cleaning; each has at least one token, so
    the count is at least their number, and it is zero exactly when the
    body is empty. *)
Theorem tokens_add_up u c t sel :
  let nodes := drop_bad (clean_paras (xpath_paras sel)) in
  ∃ rec,
    (parse_article urlparse_path (TextResponse u c t sel)).2 = [rec]
    ∧ body rec = join [space] nodes
    ∧ tokens rec = list_sum ((fun n => length (split_ws n)) <$> nodes)
    ∧ length nodes ≤ tokens rec
    ∧ (tokens rec = 0 ↔ body rec = []).
Proof.
  intros nodes.
  pose proof (kept_nodes_normalised (xpath_paras sel)) as Hall.
  fold nodes in Hall.
  eexists. split; [reflexivity|]. cbn [body tokens]. unfold body_of.
  fold nodes. split; [reflexivity|]. clearbody nodes.
  rewrite split_ws_join_concat.
  assert (length (concat (split_ws <$> nodes))
          = list_sum ((fun n => length (split_ws n)) <$> nodes)) as Hsum.
  { clear. induction nodes as [|x nodes IH]; [done|].
    rewrite !fmap_cons. cbn [concat list_sum fold_right]. rewrite length_app, IH.
    done. }
  assert (length nodes ≤ list_sum ((fun n => length (split_ws n)) <$> nodes))
    as Hle.
  { clear -Hall. induction Hall as [|x nodes (_ & Hx & _ & Hsx) _ IH]; [done|].
    rewrite fmap_cons. cbn [list_sum fold_right length].
    pose proof (split_ws_trimmed_not_nil x Hx Hsx) as Hne.
    destruct (split_ws x); [done|]. simpl.
    change (fold_right Nat.add 0 ((λ n, length (split_ws n)) <$> nodes))
      with (list_sum ((λ n, length (split_ws n)) <$> nodes)).
    lia. }
  split; [exact Hsum|]. split; [by rewrite Hsum|].
  rewrite Hsum. split.
  - intros H0. assert (length nodes = 0) as Hn by lia.
    by destruct nodes.
  - intros Hj. destruct nodes as [|x nodes]; [done|]. exfalso.
    apply Forall_cons in Hall as [(_ & Hx & _) _].
    apply (f_equal head) in Hj. rewrite join_head in Hj by done.
    by destruct x.
Qed.

End Record_.

Lemma article_record_fields_witness :
  ∃ rec,
    parse_article urlparse_site sample_text_response = ([], [rec])
    ∧ author rec = None.
Proof.
  destruct (article_record_fields urlparse_site sample_article
              (Some (py "sports")) None sample_selectors)
    as (rec & Hrec & _ & _ & _ & _ & Hauthor & _).
  exists rec. split; [exact Hrec|]. apply Hauthor.
  split; intros a Ha; discriminate Ha.
Defined.

(** ** More on the registry and the classifiers *)

Section Spellings.

Implicit Types (m : Meta) (seen : gset pystr) (u : pystr).

(** X16. The requests of a round follow the page: their URLs are hrefs of
    the page's answer, in the order in which the page listed them. *)
Theorem harvest_keeps_page_order m items seen :
  req_url <$> (harvest m items seen).1.1 `sublist_of` hrefs_of items.
Proof.
  revert seen. induction items as [|[u|u] items IH]; intros seen; simpl.
  - constructor.
  - destruct (visit m seen u) as [[r|] seen0] eqn:Hv.
    + apply visit_some in Hv as (_ & _ & -> & ->).
      specialize (IH ({[u]} ∪ seen)).
      destruct (harvest m items ({[u]} ∪ seen)) as [[rs s] n]. simpl in *.
      by apply sublist_skip.
    + apply sublist_cons, IH.
  - apply IH.
Qed.

(** X17. The registry compares URLs as strings: an article URL that ends
    in its digits and the same URL with a slash appended both match
    [ARTICLE_RE], and a page that lists both gets a request for each. *)
Theorem trailing_slash_spellings_both_requested m u :
  ARTICLE_RE_match u = true →
  (∀ c, last u = Some c → isdecimal c = true) →
  ARTICLE_RE_match (u ++ py "/") = true
  ∧ (harvest m [Href u; Href (u ++ py "/")] seen_links_init).1.1
    = [ {| req_url := u; req_meta := m |};
        {| req_url := u ++ py "/"; req_meta := m |} ].
Proof.
  intros Hm Hlast.
  assert (ARTICLE_RE_match (u ++ py "/") = true) as Hm2.
  { apply ARTICLE_RE_match_shape in Hm
      as (s & seg & ds & sl & nl & -> & Hs & Hseg & Hseg' & Hds & Hds' & Hsl & Hnl).
    assert (nl = []) as ->.
    { destruct Hnl as [-> | ->]; [done|]. exfalso.
      specialize (Hlast 10%N). rewrite !last_app in Hlast.
      by specialize (Hlast eq_refl). }
    assert (sl = []) as ->.
    { destruct Hsl as [-> | ->]; [done|]. exfalso.
      specialize (Hlast (ch "/")). rewrite !last_app in Hlast.
      by specialize (Hlast eq_refl). }
    apply ARTICLE_RE_match_shape. exists s, seg, ds, (py "/"), [].
    split; [by rewrite <- !app_assoc|]. repeat (split; [done|]).
    split; [by right | by left]. }
  split; [exact Hm2|].
  assert (u ++ py "/" ≠ u) as Hne.
  { intros H. apply (f_equal length) in H. rewrite length_app in H. simpl in H.
    unfold char in *. lia. }
  cbn [harvest]. unfold visit. rewrite Hm, Hm2. cbn [negb].
  rewrite decide_False by apply not_elem_of_empty.
  rewrite decide_False by set_solver. done.
Qed.

End Spellings.

Lemma trailing_slash_spellings_both_requested_witness :
  ARTICLE_RE_match (sample_article ++ py "/") = true
  ∧ (harvest sample_meta [Href sample_article; Href (sample_article ++ py "/")]
       seen_links_init).1.1
    = [ {| req_url := sample_article; req_meta := sample_meta |};
        {| req_url := sample_article ++ py "/"; req_meta := sample_meta |} ].
Proof.
  apply (trailing_slash_spellings_both_requested sample_meta sample_article).
  - vm_compute. reflexivity.
  - intros c Hc. vm_compute in Hc. injection Hc as <-. vm_compute. reflexivity.
Defined.

Section SectionAndCategory.

Variable urlparse_path : pystr → result pystr.

(** X18. The two classifiers agree on plain URLs: when [url_to_section]
    returns a section for a non-empty URL that does not contain "/topic/",
    then [source_to_category] returns that section as the category. *)
Theorem section_is_category u seg :
  u ≠ [] →
  contains (py "/topic/") u = false →
  url_to_section urlparse_path u = Some seg →
  source_to_category urlparse_path u = Ret (seg, None).
Proof.
  intros Hne Hc Hsec. apply truthy_true in Hne.
  unfold source_to_category. rewrite Hne, Hc. cbn [negb]. cbv iota.
  unfold url_to_section, url_to_section_try in Hsec.
  destruct (urlparse_path u) as [p|e]; [|done].
  cbn [mbind result_bind] in *. cbv zeta in *.
  destruct (strip_chars (ch "/") p) as [|d path] eqn:Hpath.
  - exfalso. revert Hsec. vm_compute. discriminate.
  - cbn [truthy negb]. cbv iota.
    destruct (2 <=? length (split (py "/") (d :: path))); [|done].
    by injection Hsec as ->.
Qed.

End SectionAndCategory.

Lemma section_is_category_witness :
  source_to_category urlparse_site (py "https://www.dhakapost.com/sports/12345")
  = Ret (py "sports", None).
Proof.
  apply (section_is_category urlparse_site).
  - discriminate.
  - vm_compute. reflexivity.
  - vm_compute. reflexivity.
Defined.
